(** * cylc.uiserver.handlers: authorisation layer and websocket subscription handler

    A shallow embedding of [src/cylc/uiserver/handlers.py].  Handler methods
    are state transformers over a [World] that holds the handler object
    ([self]), the heap of [asyncio.Queue] objects and the event loop's
    ready list.  A call either returns, raises, or (for a coroutine)
    suspends. *)

From Stdlib Require Import ZArith String List Lia.
From stdpp Require Import base option list gmap strings.

(** ** Python values *)

(** The values a principal resolver can hand back: [None], a user name, or
    the hub's user model (a dict).  The same type serves as JSON document. *)
#[local] Unset Elimination Schemes.
Inductive pyval :=
| PNone
| PBool (b : bool)
| PStr (s : string)
| PDict (d : gmap string pyval).
#[local] Set Elimination Schemes.

(** [bool(v)]: [None], [False], [''] and [{}] are falsy. *)
Definition truthy (v : pyval) : bool :=
  match v with
  | PNone => false
  | PBool b => b
  | PStr s => negb (String.eqb s "")
  | PDict d => match map_to_list d with [] => false | _ :: _ => true end
  end.

(** A reference to an object of a collaborator (subscription server,
    resolver registry); only its identity matters here. *)
Record ObjRef := { obj_id : nat }.

(** What the handler reads from [self.request]. *)
Record Request := {
  sec_websocket_protocol : list string;
  authorization : string
}.

Inductive HandlerClass :=
| CylcAppHandler
| CylcStaticHandler
| UserProfileHandler
| UIServerGraphQLHandler
| SubscriptionHandler.

(** One [self.log.debug(f'authorise {user} for {self.__class__}')] record,
    kept as its level and the two interpolated values. *)
Inductive LogLevel := DEBUG | WARNING.
Record LogRecord := {
  levelname : LogLevel;
  msg_user : pyval;
  msg_class : HandlerClass
}.

(** ** Exceptions and coroutines *)

Inductive exn :=
| HTTPError (status_code : Z) (reason : option string)
| QueueEmpty
| QueueFull
| AttributeError (name : string)
| AssertionError
| SystemError.

(** Text frames. *)
Definition msg := string.

(** A parked coroutine, resumable by the event loop: a [Queue.put] holding
    its item, or a [Queue.get]. *)
Inductive coro :=
| PutCoro (q : nat) (item : msg)
| GetCoro (q : nat).

Inductive completion :=
| PutDone
| GetDone (item : msg).

(** ** asyncio.Queue *)

Record Queue := {
  maxsize : Z;
  _queue : list msg;
  _getters : list coro;
  _putters : list coro
}.

(** [Queue(maxsize)] *)
Definition Queue_new (n : Z) : Queue :=
  {| maxsize := n; _queue := []; _getters := []; _putters := [] |}.

Definition qsize (q : Queue) : Z := Z.of_nat (length (_queue q)).

Definition Queue_empty (q : Queue) : bool :=
  match _queue q with [] => true | _ :: _ => false end.

Definition Queue_full (q : Queue) : bool :=
  if (maxsize q <=? 0)%Z then false else (maxsize q <=? qsize q)%Z.

Definition with_queue (l : list msg) (q : Queue) : Queue :=
  {| maxsize := maxsize q; _queue := l;
     _getters := _getters q; _putters := _putters q |}.

Definition with_getters (l : list coro) (q : Queue) : Queue :=
  {| maxsize := maxsize q; _queue := _queue q;
     _getters := l; _putters := _putters q |}.

Definition with_putters (l : list coro) (q : Queue) : Queue :=
  {| maxsize := maxsize q; _queue := _queue q;
     _getters := _getters q; _putters := l |}.

(** ** The world *)

(** The execution context handed to the subscription server. *)
Record Context := {
  ctx_request : Request;
  ctx_resolvers : ObjRef
}.

(** A callback given to [IOLoop.spawn_callback]:
    [subscription_server.handle(self, self.context)]. *)
Record Task := {
  task_server : ObjRef;
  task_context : Context
}.

Record World := {
  (* self *)
  cls : HandlerClass;
  request : Request;
  log : list LogRecord;
  _current_user : option pyval;
  queue : option nat;
  subscription_server : option ObjRef;
  resolvers : option ObjRef;
  selected_subprotocol : option string;
  written : list pyval;
  _status_code : Z;
  (* the process *)
  heap : list Queue;
  ready : list coro;
  spawned : list Task
}.

Definition set_log (f : list LogRecord -> list LogRecord) (w : World) : World :=
  {| cls := cls w; request := request w; log := f (log w);
     _current_user := _current_user w; queue := queue w;
     subscription_server := subscription_server w; resolvers := resolvers w;
     selected_subprotocol := selected_subprotocol w; written := written w;
     _status_code := _status_code w;
     heap := heap w; ready := ready w; spawned := spawned w |}.

Definition set_current_user (u : option pyval) (w : World) : World :=
  {| cls := cls w; request := request w; log := log w;
     _current_user := u; queue := queue w;
     subscription_server := subscription_server w; resolvers := resolvers w;
     selected_subprotocol := selected_subprotocol w; written := written w;
     _status_code := _status_code w;
     heap := heap w; ready := ready w; spawned := spawned w |}.

Definition set_attrs (q : option nat) (srv res : option ObjRef) (w : World) : World :=
  {| cls := cls w; request := request w; log := log w;
     _current_user := _current_user w; queue := q;
     subscription_server := srv; resolvers := res;
     selected_subprotocol := selected_subprotocol w; written := written w;
     _status_code := _status_code w;
     heap := heap w; ready := ready w; spawned := spawned w |}.

Definition set_selected_subprotocol (p : option string) (w : World) : World :=
  {| cls := cls w; request := request w; log := log w;
     _current_user := _current_user w; queue := queue w;
     subscription_server := subscription_server w; resolvers := resolvers w;
     selected_subprotocol := p; written := written w;
     _status_code := _status_code w;
     heap := heap w; ready := ready w; spawned := spawned w |}.

Definition set_written (f : list pyval -> list pyval) (w : World) : World :=
  {| cls := cls w; request := request w; log := log w;
     _current_user := _current_user w; queue := queue w;
     subscription_server := subscription_server w; resolvers := resolvers w;
     selected_subprotocol := selected_subprotocol w; written := f (written w);
     _status_code := _status_code w;
     heap := heap w; ready := ready w; spawned := spawned w |}.

Definition set_status (s : Z) (w : World) : World :=
  {| cls := cls w; request := request w; log := log w;
     _current_user := _current_user w; queue := queue w;
     subscription_server := subscription_server w; resolvers := resolvers w;
     selected_subprotocol := selected_subprotocol w; written := written w;
     _status_code := s;
     heap := heap w; ready := ready w; spawned := spawned w |}.

Definition set_heap (f : list Queue -> list Queue) (w : World) : World :=
  {| cls := cls w; request := request w; log := log w;
     _current_user := _current_user w; queue := queue w;
     subscription_server := subscription_server w; resolvers := resolvers w;
     selected_subprotocol := selected_subprotocol w; written := written w;
     _status_code := _status_code w;
     heap := f (heap w); ready := ready w; spawned := spawned w |}.

Definition set_ready (f : list coro -> list coro) (w : World) : World :=
  {| cls := cls w; request := request w; log := log w;
     _current_user := _current_user w; queue := queue w;
     subscription_server := subscription_server w; resolvers := resolvers w;
     selected_subprotocol := selected_subprotocol w; written := written w;
     _status_code := _status_code w;
     heap := heap w; ready := f (ready w); spawned := spawned w |}.

Definition set_spawned (f : list Task -> list Task) (w : World) : World :=
  {| cls := cls w; request := request w; log := log w;
     _current_user := _current_user w; queue := queue w;
     subscription_server := subscription_server w; resolvers := resolvers w;
     selected_subprotocol := selected_subprotocol w; written := written w;
     _status_code := _status_code w;
     heap := heap w; ready := ready w; spawned := f (spawned w) |}.

(** A handler object just allocated for a request, before [initialize]:
    no attribute set, nothing logged or written, status 200. *)
Definition new_handler (c : HandlerClass) (r : Request)
    (h : list Queue) (rd : list coro) (sp : list Task) : World :=
  {| cls := c; request := r; log := [];
     _current_user := None; queue := None;
     subscription_server := None; resolvers := None;
     selected_subprotocol := None; written := [];
     _status_code := 200;
     heap := h; ready := rd; spawned := sp |}.

(** ** Calls: return, raise or suspend *)

Inductive outcome (A : Type) :=
| Returned (a : A)
| Raised (e : exn)
| Suspended (c : coro).
Arguments Returned {A} a.
Arguments Raised {A} e.
Arguments Suspended {A} c.

Definition M (A : Type) : Type := World -> outcome A * World.

Definition ret {A} (a : A) : M A := fun w => (Returned a, w).

Definition bind {A B} (m : M A) (k : A -> M B) : M B :=
  fun w =>
    match m w with
    | (Returned a, w') => k a w'
    | (Raised e, w') => (Raised e, w')
    | (Suspended c, w') => (Suspended c, w')
    end.

Definition raise {A} (e : exn) : M A := fun w => (Raised e, w).

(** [await] on a future that is not done: the coroutine [c] is parked. *)
Definition suspend {A} (c : coro) : M A := fun w => (Suspended c, w).

Definition gets {A} (f : World -> A) : M A := fun w => (Returned (f w), w).

Definition modify (f : World -> World) : M unit := fun w => (Returned tt, f w).

#[global] Instance M_ret : MRet M := @ret.
#[global] Instance M_bind : MBind M := fun A B k m => bind m k.

(** ** asyncio.Queue on the heap *)

Definition deref (r : nat) : M Queue :=
  fun w => match heap w !! r with
           | Some q => (Returned q, w)
           | None => (Raised SystemError, w)
           end.

Definition store (r : nat) (q : Queue) : M unit :=
  modify (set_heap (fun h => <[r := q]> h)).

(** [loop.call_soon]: the woken coroutine runs on a later loop iteration. *)
Definition call_soon (c : coro) : M unit :=
  modify (set_ready (fun l => l ++ [c])).

(** [Queue._wakeup_next(self._getters)] *)
Definition wakeup_next_getter (r : nat) : M unit :=
  q ← deref r;
  match _getters q with
  | [] => ret tt
  | g :: gs => store r (with_getters gs q) ;; call_soon g
  end.

(** [Queue._wakeup_next(self._putters)] *)
Definition wakeup_next_putter (r : nat) : M unit :=
  q ← deref r;
  match _putters q with
  | [] => ret tt
  | p :: ps => store r (with_putters ps q) ;; call_soon p
  end.

Definition Queue_put_nowait (r : nat) (item : msg) : M unit :=
  q ← deref r;
  if Queue_full q then raise QueueFull
  else store r (with_queue (_queue q ++ [item]) q) ;; wakeup_next_getter r.

(** [await Queue.put(item)]: parks while the queue is full. *)
Definition Queue_put (r : nat) (item : msg) : M unit :=
  q ← deref r;
  if Queue_full q then
    store r (with_putters (_putters q ++ [PutCoro r item]) q) ;;
    suspend (PutCoro r item)
  else Queue_put_nowait r item.

Definition Queue_get_nowait (r : nat) : M msg :=
  q ← deref r;
  match _queue q with
  | [] => raise QueueEmpty
  | item :: rest =>
      store r (with_queue rest q) ;; wakeup_next_putter r ;; ret item
  end.

(** [await Queue.get()]: parks while the queue is empty. *)
Definition Queue_get (r : nat) : M msg :=
  q ← deref r;
  if Queue_empty q then
    store r (with_getters (_getters q ++ [GetCoro r]) q) ;;
    suspend (GetCoro r)
  else Queue_get_nowait r.

(** The loop resumes a woken coroutine: it re-tests its condition. *)
Definition resume (c : coro) : M completion :=
  match c with
  | PutCoro r item => Queue_put r item ;; ret PutDone
  | GetCoro r => item ← Queue_get r; ret (GetDone item)
  end.

(** One iteration of the event loop over its ready list. *)
Definition run_once : M (option completion) :=
  l ← gets ready;
  match l with
  | [] => ret None
  | c :: rest =>
      modify (set_ready (fun _ => rest)) ;;
      d ← resume c; ret (Some d)
  end.

(** ** CylcAppHandler: the authorisation layer *)

(** [self._authorise(user)] is looked up on [self], so a subclass can swap
    the decision.  A decision yields a truth value and may log. *)
Class Authoriser := {
  _authorise : pyval -> World -> bool * World
}.

Definition HTTP_403_insufficient : exn :=
  HTTPError 403 (Some "authorisation insufficient"%string).

Section Authorise.
Context {policy : Authoriser}.

Definition authorise (user : pyval) : M unit :=
  fun w =>
    let (ok, w') := _authorise user w in
    if negb ok then raise HTTP_403_insufficient w' else ret tt w'.
End Authorise.

Definition log_debug (user : pyval) : M unit :=
  fun w =>
    let r := {| levelname := DEBUG; msg_user := user; msg_class := cls w |} in
    (Returned tt, set_log (fun l => l ++ [r]) w).

(** [CylcAppHandler._authorise]: logs, then [return True]. *)
#[global] Instance CylcAppHandler_policy : Authoriser := {
  _authorise user w := (true, snd (log_debug user w))
}.

(** [graphql_ws.constants.GRAPHQL_WS], the GraphQL-over-websocket token. *)
Definition GRAPHQL_WS : string := "graphql-ws".

Section Handlers.
(** [ME = getpass.getuser()] and [socket.gethostname()]. *)
Variable ME : string.
Variable hostname : string.
(** [CylcAppHandler.__bases__[0].get_current_user]: the principal resolver
    of the base class (token based, or the hub's); [PNone] when it
    resolves nobody. *)
Variable base_get_current_user : Request -> pyval.
(** Python's [__debug__]: [assert] statements run unless the interpreter
    was started with [-O]. *)
Variable assertions_enabled : bool.
(** Tornado's own checks of the upgrade request, which come before any
    negotiation: the [Upgrade] and [Connection] headers (400), [check_origin]
    (403), the websocket version (426), and the [Host], [Sec-WebSocket-Key]
    and [Sec-WebSocket-Version] headers (400).  [Some status] when one of
    them refuses the request, [None] when the request passes them all. *)
Variable transport_refusal : Request -> option Z.

Definition get_current_user : M pyval :=
  user ← gets (fun w => base_get_current_user (request w));
  authorise user ;;
  ret user.

(** Tornado's [RequestHandler.current_user] property: resolved on first
    access through [get_current_user], then cached on the handler. *)
Definition current_user : M pyval :=
  c ← gets _current_user;
  match c with
  | Some u => ret u
  | None =>
      u ← get_current_user;
      modify (set_current_user (Some u)) ;;
      ret u
  end.

(** [tornado.web.authenticated] on a GET: without a user the request is
    redirected to the login page and the method is not run. *)
Definition web_authenticated (method : M unit) : M unit :=
  user ← current_user;
  if truthy user then method else modify (set_status 302).

(** Modelled from the spec: the [authenticated] decorator of
    [cylc.uiserver.websockets], whose source is not in [handlers.py].  On
    the handshake the principal is resolved, then authorised, once per
    connection; a failure is an HTTP 403 and the method is not run. *)
Definition websockets_authenticated {A} (method : M A) : M A :=
  user ← current_user;
  if truthy user then method else raise (HTTPError 403 None).

(** *** UserProfileHandler *)

(** [self.write(json.dumps(user_info))]; the chunk is kept as the JSON
    document that is serialised. *)
Definition write (chunk : pyval) : M unit :=
  modify (set_written (fun l => l ++ [chunk])).

Definition token_user_info : gmap string pyval :=
  <["server" := PStr hostname]>
    (<["name" := PStr ME]> (<["kind" := PStr "user"]> ∅)).

Definition UserProfileHandler_get : M unit :=
  web_authenticated (
    user_info ← get_current_user;
    let user_info :=
      match user_info with
      | PDict d => d
      | _ => token_user_info
      end in
    let user_info := <["owner" := PStr ME]> user_info in
    write (PDict user_info)).

(** *** SubscriptionHandler *)

(** Allocation of a new [Queue] object: its reference is fresh. *)
Definition alloc (q : Queue) : M nat :=
  fun w => (Returned (length (heap w)), set_heap (fun h => h ++ [q]) w).

Definition initialize (sub_server resolvers : ObjRef) : M unit :=
  r ← alloc (Queue_new 100);
  modify (set_attrs (Some r) (Some sub_server) (Some resolvers)).

Definition select_subprotocol (subprotocols : list string) : option string :=
  Some GRAPHQL_WS.

(** Reading an attribute that [initialize] has not set yet raises. *)
Definition getattr {A} (name : string) (f : World -> option A) : M A :=
  fun w => match f w with
           | Some a => (Returned a, w)
           | None => (Raised (AttributeError name), w)
           end.

Definition context : M Context :=
  rq ← gets request;
  rs ← getattr "resolvers" resolvers;
  ret {| ctx_request := rq; ctx_resolvers := rs |}.

Definition spawn_callback (t : Task) : M unit :=
  modify (set_spawned (fun l => l ++ [t])).

Definition open : M unit :=
  websockets_authenticated (
    srv ← getattr "subscription_server" subscription_server;
    ctx ← context;
    spawn_callback {| task_server := srv; task_context := ctx |}).

(** [try: ... except Exception:] around a call whose exception is logged
    and goes no further. *)
Definition swallow (method : M unit) : M unit :=
  fun w =>
    match method w with
    | (Raised _, w') => (Returned tt, w')
    | r => r
    end.

(** Tornado's [WebSocketHandler.get].  A request that fails one of the
    transport's checks is answered with its status and goes no further.
    Otherwise the handshake asks the handler to choose among the offered
    sub-protocols, asserts that a chosen one was offered, answers 101 and
    calls [open]; an exception of [open] is logged and the connection is
    aborted (the stream it closes is not part of the world). *)
Definition WebSocketHandler_get : M unit :=
  rq ← gets request;
  match transport_refusal rq with
  | Some status => modify (set_status status)
  | None =>
      let offered := sec_websocket_protocol rq in
      let selected := select_subprotocol offered in
      modify (set_selected_subprotocol selected) ;;
      match selected with
      | Some p =>
          if assertions_enabled && negb (bool_decide (p ∈ offered))
          then raise AssertionError
          else ret tt
      | None => ret tt
      end ;;
      modify (set_status 101) ;;
      swallow open
  end.

Definition get : M unit :=
  websockets_authenticated WebSocketHandler_get.

Definition on_message (message : msg) : M unit :=
  q ← getattr "queue" queue;
  Queue_put q message.

Definition recv : M msg :=
  q ← getattr "queue" queue;
  Queue_get q.

Definition recv_nowait : M msg :=
  q ← getattr "queue" queue;
  Queue_get_nowait q.

(** *** A connection, as the transport drives the handler *)

(** Tornado builds the handler for the upgrade request, which runs
    [initialize] with the route's arguments, then dispatches [get]. *)
Definition connect (sub_server resolvers : ObjRef) : M unit :=
  initialize sub_server resolvers ;;
  get.

(** What can happen to an initialised handler afterwards. *)
Inductive event :=
| EvSelectSubprotocol (subprotocols : list string)
| EvGet
| EvOpen
| EvMessage (message : msg)
| EvRecv
| EvRecvNowait
| EvLoop.

Definition step (w : World) (e : event) : World :=
  match e with
  | EvSelectSubprotocol l =>
      set_selected_subprotocol (select_subprotocol l) w
  | EvGet => snd (get w)
  | EvOpen => snd (open w)
  | EvMessage m => snd (on_message m w)
  | EvRecv => snd (recv w)
  | EvRecvNowait => snd (recv_nowait w)
  | EvLoop => snd (run_once w)
  end.

Definition run (events : list event) (w : World) : World :=
  fold_left step events w.

(** [on_message] for each frame in turn, with the outcome of each call. *)
Fixpoint deliver (frames : list msg) (w : World) : list (outcome unit) * World :=
  match frames with
  | [] => ([], w)
  | m :: rest =>
      let (o, w1) := on_message m w in
      let (os, w2) := deliver rest w1 in
      (o :: os, w2)
  end.

(** [n] successive calls of [recv], with the outcome of each. *)
Fixpoint recv_n (n : nat) (w : World) : list (outcome msg) * World :=
  match n with
  | O => ([], w)
  | S n' =>
      let (o, w1) := recv w in
      let (os, w2) := recv_n n' w1 in
      (o :: os, w2)
  end.
End Handlers.

(** ** Ownership of the queue *)

(** A call keeps the handler's queue when [self.queue] still refers to the
    same object afterwards and no [Queue] has been allocated. *)
Definition keeps_queue {A} (m : M A) : Prop :=
  forall w : World,
    queue (snd (m w)) = queue w /\
    length (heap (snd (m w))) = length (heap w).

(** ** Traffic on one connection *)

(** What the transport, the consumers and the event loop do to an
    initialised handler: a frame arrives ([on_message]), a consumer awaits
    [recv] or polls [recv_nowait], or the loop takes one turn. *)
Inductive traffic :=
| Frame (message : msg)
| Recv
| RecvNowait
| Turn.

(** The frame a consumer gets out of a call, if any. *)
Definition delivered_by_recv (o : outcome msg) : list msg :=
  match o with
  | Returned m => [m]
  | _ => []
  end.

(** The frame a loop turn hands to a consumer that was parked in [recv]. *)
Definition delivered_by_turn (o : outcome (option completion)) : list msg :=
  match o with
  | Returned (Some (GetDone m)) => [m]
  | _ => []
  end.

Definition traffic_step (w : World) (t : traffic) : list msg * World :=
  match t with
  | Frame m => ([], snd (on_message m w))
  | Recv => (delivered_by_recv (fst (recv w)), snd (recv w))
  | RecvNowait =>
      (delivered_by_recv (fst (recv_nowait w)), snd (recv_nowait w))
  | Turn => (delivered_by_turn (fst (run_once w)), snd (run_once w))
  end.

(** The frames delivered to consumers along the way, and the final world. *)
Fixpoint traffic_run (ts : list traffic) (w : World) : list msg * World :=
  match ts with
  | [] => ([], w)
  | t :: rest =>
      let (d, w1) := traffic_step w t in
      let (ds, w2) := traffic_run rest w1 in
      (d ++ ds, w2)
  end.

(** The frames the transport gave to [on_message], in order. *)
Definition offered_frames (ts : list traffic) : list msg :=
  flat_map (fun t => match t with Frame m => [m] | _ => [] end) ts.

(** The frames held by producers that wait in a list of coroutines. *)
Definition put_items (l : list coro) : list msg :=
  flat_map (fun c => match c with PutCoro _ m => [m] | GetCoro _ => [] end) l.

(** The frames accepted but not yet delivered: queued, held by a parked
    producer, or held by a producer woken and waiting for its loop turn. *)
Definition in_flight (r : nat) (w : World) : list msg :=
  match heap w !! r with
  | Some q => _queue q ++ put_items (_putters q) ++ put_items (ready w)
  | None => []
  end.

Definition coro_queue (c : coro) : nat :=
  match c with PutCoro r _ => r | GetCoro r => r end.

Definition is_put (c : coro) : Prop :=
  match c with PutCoro _ _ => True | GetCoro _ => False end.

Definition is_get (c : coro) : Prop :=
  match c with PutCoro _ _ => False | GetCoro _ => True end.

(** The queue [r] of a connection in good order: it is the bounded queue of
    [initialize], within its bound, and every waiting coroutine is one of
    this queue, producers among the putters and consumers among the
    getters. *)
Definition tidy (r : nat) (w : World) : Prop :=
  exists q : Queue,
    heap w !! r = Some q /\
    maxsize q = 100%Z /\
    length (_queue q) <= 100 /\
    Forall (fun c => coro_queue c = r /\ is_put c) (_putters q) /\
    Forall (fun c => coro_queue c = r /\ is_get c) (_getters q) /\
    Forall (fun c => coro_queue c = r) (ready w).

(** The frames still held by producers of queue [r], parked or woken. *)
Definition pending (r : nat) (w : World) : list msg :=
  match heap w !! r with
  | Some q => put_items (_putters q) ++ put_items (ready w)
  | None => []
  end.

(** The transport's discipline: Tornado awaits [on_message] before it reads
    the next frame, so no frame arrives while a producer still waits. *)
Fixpoint disciplined (r : nat) (ts : list traffic) (w : World) : bool :=
  match ts with
  | [] => true
  | t :: rest =>
      match t, pending r w with
      | Frame _, _ :: _ => false
      | _, _ => true
      end
      && disciplined r rest (snd (traffic_step w t))
  end.

(** ** Authorisation once the principal is known *)

(** A call keeps the authorisation state when, on a handler whose principal
    is already cached, it neither logs another decision nor forgets the
    principal. *)
Definition keeps_auth {A} (m : M A) : Prop :=
  forall (w : World) (u : pyval),
    _current_user w = Some u ->
    log (snd (m w)) = log w /\ _current_user (snd (m w)) = Some u.

(** ** UIServerGraphQLHandler *)

(** The values of the handler's attributes: [None], a flag, an object of a
    collaborator (schema, executor, backend, ...), or a list of them. *)
Inductive pyobj :=
| ONone
| OBool (b : bool)
| OObj (o : ObjRef)
| OList (l : list ObjRef).

(** [bool(v)], as [or] tests it. *)
Definition obj_truthy (v : pyobj) : bool :=
  match v with
  | ONone => false
  | OBool b => b
  | OObj _ => true
  | OList l => match l with [] => false | _ :: _ => true end
  end.

(** The named parameters of [UIServerGraphQLHandler.initialize]; Python
    binds these itself, so none of them can be a key of [**kwargs]. *)
Definition initialize_parameters : list string :=
  ["schema"; "executor"; "middleware"; "root_value"; "graphiql"; "pretty";
   "batch"; "backend"]%string.

(** The class body declares [resolvers = None] on top of what is inherited. *)
Definition UIServerGraphQLHandler_attributes (inherited : gmap string pyobj)
    : gmap string pyobj :=
  <["resolvers" := ONone]> inherited.

(** The properties that [handlers.py] declares without a setter:
    [hub_users] and [hub_groups] on [CylcAppHandler], [context] on
    [UIServerGraphQLHandler]. *)
Definition readonly_properties : list string :=
  ["hub_users"; "hub_groups"; "context"]%string.

Section GraphQL.
(** [self.instantiate_middleware] and the value of
    [graphql.get_default_backend()]. *)
Variable instantiate_middleware : pyobj -> list ObjRef.
Variable get_default_backend : pyobj.
(** The names that a base class (Tornado, Jupyter, graphene-tornado) binds
    to a property or another data descriptor, and what [hasattr] and
    [setattr] do for such a name; their code is not in [handlers.py]. *)
Variable inherited_descriptor : string -> bool.
Variable inherited_hasattr : gmap string pyobj -> string -> bool.
Variable inherited_setattr :
  gmap string pyobj -> string -> pyobj -> exn + gmap string pyobj.

(** Reading [self.key] does not raise, for a name that is none of this
    file's properties: [self] holds the plain attributes, of the instance
    and of its classes. *)
Definition visible (self : gmap string pyobj) (key : string) : bool :=
  if inherited_descriptor key then inherited_hasattr self key
  else bool_decide (is_Some (self !! key)).

(** [hasattr(self, key)] runs the getter of a property: those of
    [hub_users] and [hub_groups] return [None]; the one of [context] reads
    [self.graphql_params], [self.request] and [self.resolvers]. *)
Definition hasattr (self : gmap string pyobj) (key : string) : bool :=
  if bool_decide (key ∈ ["hub_users"; "hub_groups"]%string) then true
  else if bool_decide (key = "context"%string) then
    visible self "graphql_params" && visible self "request"
    && visible self "resolvers"
  else visible self key.

(** [setattr(self, key, value)], also written [self.key = value]: a
    property without setter raises [AttributeError]. *)
Definition setattr (self : gmap string pyobj) (key : string) (value : pyobj)
    : exn + gmap string pyobj :=
  if bool_decide (key ∈ readonly_properties) then inl (AttributeError key)
  else if inherited_descriptor key then inherited_setattr self key value
  else inr (<[key := value]> self).

(** [for key, value in kwargs.items(): if hasattr(self, key): setattr(...)] *)
Fixpoint set_extra_attributes (kwargs : list (string * pyobj))
    (self : gmap string pyobj) : exn + gmap string pyobj :=
  match kwargs with
  | [] => inr self
  | (key, value) :: rest =>
      if hasattr self key then
        match setattr self key value with
        | inl e => inl e
        | inr self' => set_extra_attributes rest self'
        end
      else set_extra_attributes rest self
  end.

(** One statement after another; an exception ends the method. *)
Definition and_then (r : exn + gmap string pyobj)
    (k : gmap string pyobj -> exn + gmap string pyobj)
    : exn + gmap string pyobj :=
  match r with
  | inl e => inl e
  | inr self => k self
  end.

(** [super(TornadoGraphQLHandler, self).initialize()] reaches Tornado's
    empty [initialize] hook, so the assignments are all there is. *)
Definition UIServerGraphQLHandler_initialize
    (schema executor middleware root_value graphiql pretty batch backend : pyobj)
    (kwargs : list (string * pyobj)) (self : gmap string pyobj)
    : exn + gmap string pyobj :=
  and_then (setattr self "schema" schema) (fun self =>
  and_then
    match middleware with
    | ONone => inr self
    | _ => setattr self "middleware" (OList (instantiate_middleware middleware))
    end (fun self =>
  and_then (setattr self "executor" executor) (fun self =>
  and_then (setattr self "root_value" root_value) (fun self =>
  and_then (setattr self "pretty" pretty) (fun self =>
  and_then (setattr self "graphiql" graphiql) (fun self =>
  and_then (setattr self "batch" batch) (fun self =>
  and_then
    (setattr self "backend"
       (if obj_truthy backend then backend else get_default_backend))
    (set_extra_attributes kwargs)))))))).
End GraphQL.

(** ** Sample data *)

(** Frames ["0"], ["1"], ... as test traffic. *)
Definition frame (n : nat) : msg :=
  String (Ascii.ascii_of_nat (48 + n)) EmptyString.

Definition frames (n : nat) : list msg := map frame (seq 0 n).

Definition sample_request (offered : list string) : Request :=
  {| sec_websocket_protocol := offered; authorization := "token" |}.

(** A subscription handler just built for a request, in an idle process. *)
Definition sample_handler (offered : list string) : World :=
  new_handler SubscriptionHandler (sample_request offered) [] [] [].

Definition resolves_to (user : pyval) : Request -> pyval := fun _ => user.

(** An upgrade request that passes all of the transport's checks. *)
Definition well_formed : Request -> option Z := fun _ => None.

Definition sample_server : ObjRef := {| obj_id := 1 |}.
Definition sample_resolvers : ObjRef := {| obj_id := 2 |}.

(** 101 frames arrive before a consumer awaits one frame, the loop takes a
    turn and a consumer polls for another. *)
Definition sample_traffic : list traffic :=
  map Frame (frames 101) ++ [Recv; Turn; RecvNowait].

(** The sample handler once [initialize] has run. *)
Definition sample_initialized (offered : list string) : World :=
  snd (initialize sample_server sample_resolvers (sample_handler offered)).

(** A pending user-profile request, and a route that passes [resolvers]
    and an unknown [colour] to the GraphQL handler. *)
Definition sample_profile_request : World :=
  new_handler UserProfileHandler (sample_request []) [] [] [].

Definition sample_kwargs : list (string * pyobj) :=
  [("resolvers"%string, OObj sample_resolvers);
   ("colour"%string, OBool true)].

(** The user model a hub hands over, which has an owner of its own. *)
Definition sample_hub_user : gmap string pyval :=
  <["name" := PStr "alice"]> (<["owner" := PStr "hub"]> ∅).

Definition sample_backend : pyobj := OObj {| obj_id := 3 |}.


(** A class hierarchy whose base classes bind no descriptor. *)
Definition no_descriptor : string -> bool := fun _ => false.
Definition no_hasattr : gmap string pyobj -> string -> bool :=
  fun _ _ => false.
Definition no_setattr
    : gmap string pyobj -> string -> pyobj -> exn + gmap string pyobj :=
  fun self _ _ => inr self.

(** * Properties *)

(** ** The heap *)

Lemma lookup_store (w : World) (r : nat) (q q' : Queue) :
  heap w !! r = Some q ->
  heap (set_heap (fun h => <[r := q']> h) w) !! r = Some q'.
Proof.
  intros Hq. simpl. apply list_lookup_insert_eq.
  eapply lookup_lt_Some. exact Hq.
Qed.

Lemma set_heap_twice (w : World) (r : nat) (q1 q2 : Queue) :
  set_heap (fun h => <[r := q2]> h) (set_heap (fun h => <[r := q1]> h) w)
  = set_heap (fun h => <[r := q2]> h) w.
Proof.
  unfold set_heap. simpl. f_equal. apply list_insert_insert_eq.
Qed.

Lemma set_heap_same (w : World) (r : nat) (q : Queue) :
  heap w !! r = Some q -> set_heap (fun h => <[r := q]> h) w = w.
Proof.
  intros Hq. destruct w. unfold set_heap. simpl in *. f_equal.
  apply list_insert_id. exact Hq.
Qed.

Lemma with_queue_same (q : Queue) : with_queue (_queue q) q = q.
Proof. destruct q. reflexivity. Qed.

(** ** Single queue operations through the handler *)

Lemma Queue_put_enqueues (w : World) (r : nat) (q : Queue) (m : msg) :
  heap w !! r = Some q ->
  Queue_full q = false ->
  _getters q = [] ->
  Queue_put r m w
  = (Returned tt, set_heap (fun h => <[r := with_queue (_queue q ++ [m]) q]> h) w).
Proof.
  intros Hq Hfull Hget.
  unfold Queue_put, Queue_put_nowait, wakeup_next_getter,
    deref, store, modify, mbind, M_bind, bind.
  rewrite Hq, Hfull, Hq, Hfull.
  rewrite (lookup_store w r q _ Hq). simpl. rewrite Hget. reflexivity.
Qed.

Lemma on_message_enqueues (w : World) (r : nat) (q : Queue) (m : msg) :
  queue w = Some r ->
  heap w !! r = Some q ->
  Queue_full q = false ->
  _getters q = [] ->
  on_message m w
  = (Returned tt, set_heap (fun h => <[r := with_queue (_queue q ++ [m]) q]> h) w).
Proof.
  intros Hr Hq Hfull Hget.
  unfold on_message, getattr, mbind, M_bind, bind. rewrite Hr.
  apply (Queue_put_enqueues w r q m Hq Hfull Hget).
Qed.

Lemma on_message_suspends (w : World) (r : nat) (q : Queue) (m : msg) :
  queue w = Some r ->
  heap w !! r = Some q ->
  Queue_full q = true ->
  on_message m w
  = (Suspended (PutCoro r m),
     set_heap (fun h => <[r := with_putters (_putters q ++ [PutCoro r m]) q]> h) w).
Proof.
  intros Hr Hq Hfull.
  unfold on_message, getattr, Queue_put, deref, store, modify, suspend,
    mbind, M_bind, bind.
  rewrite Hr, Hq, Hfull. reflexivity.
Qed.

Lemma Queue_get_nowait_head (w : World) (r : nat) (q : Queue) (m : msg) (rest : list msg) :
  heap w !! r = Some q ->
  _queue q = m :: rest ->
  Queue_get_nowait r w
  = match _putters q with
    | [] => (Returned m, set_heap (fun h => <[r := with_queue rest q]> h) w)
    | p :: ps =>
        (Returned m,
         set_ready (fun l => l ++ [p])
           (set_heap (fun h => <[r := with_putters ps (with_queue rest q)]> h) w))
    end.
Proof.
  intros Hq Hitems.
  unfold Queue_get_nowait, wakeup_next_putter, deref, store, call_soon, modify,
    mbind, M_bind, bind, ret.
  rewrite Hq, Hitems. rewrite (lookup_store w r q _ Hq). simpl.
  destruct (_putters q) as [|p ps]; [reflexivity|].
  rewrite set_heap_twice. reflexivity.
Qed.

Lemma Queue_get_nowait_empty (w : World) (r : nat) (q : Queue) :
  heap w !! r = Some q ->
  _queue q = [] ->
  Queue_get_nowait r w = (Raised QueueEmpty, w).
Proof.
  intros Hq Hitems.
  unfold Queue_get_nowait, deref, raise, mbind, M_bind, bind.
  rewrite Hq, Hitems. reflexivity.
Qed.

Lemma recv_dequeues (w : World) (r : nat) (q : Queue) (m : msg) (rest : list msg) :
  queue w = Some r ->
  heap w !! r = Some q ->
  _queue q = m :: rest ->
  _putters q = [] ->
  recv w = (Returned m, set_heap (fun h => <[r := with_queue rest q]> h) w).
Proof.
  intros Hr Hq Hitems Hput.
  unfold recv, getattr, Queue_get, mbind, M_bind, bind, deref, Queue_empty.
  rewrite Hr, Hq, Hitems.
  rewrite (Queue_get_nowait_head w r q m rest Hq Hitems), Hput. reflexivity.
Qed.

(** ** Sub-protocol negotiation *)

(** [select_subprotocol] does not look at what the client offers. *)
Lemma select_subprotocol_always_graphql_ws (subprotocols : list string) :
  select_subprotocol subprotocols = Some GRAPHQL_WS.
Proof. reflexivity. Qed.

(** ** The authorisation decision *)

(** C3: [_authorise] allows every user it is given, whoever it is, so
    [authorise] never rejects; in particular two distinct names,
    ["alice"] and ["bob"], are both allowed. *)
Theorem _authorise_allows_every_user :
  (forall (user : pyval) (w : World),
      fst (@_authorise CylcAppHandler_policy user w) = true) /\
  (forall (user : pyval) (w : World),
      fst (@authorise CylcAppHandler_policy user w) = Returned tt) /\
  PStr "alice" <> PStr "bob" /\
  (forall w : World,
      fst (@_authorise CylcAppHandler_policy (PStr "alice") w) = true /\
      fst (@_authorise CylcAppHandler_policy (PStr "bob") w) = true).
Proof.
  repeat split; discriminate.
Qed.

(** C7: whatever decision function is installed, [authorise user] raises
    HTTP 403 with the reason ['authorisation insufficient'] exactly when
    [_authorise user] yields [False]; when it yields [True], [authorise]
    returns normally, and in both cases the only state change is the one
    [_authorise] made. *)
Theorem authorise_raises_403_iff_denied
    (policy : Authoriser) (user : pyval) (w : World) :
  (fst (authorise user w)
   = Raised (HTTPError 403 (Some "authorisation insufficient"%string))
   <-> fst (_authorise user w) = false) /\
  (fst (authorise user w) = Returned tt <-> fst (_authorise user w) = true) /\
  snd (authorise user w) = snd (_authorise user w).
Proof.
  unfold authorise, raise, ret, HTTP_403_insufficient.
  destruct (_authorise user w) as [[|] w']; simpl;
    repeat split; intros; try reflexivity; discriminate.
Qed.

(** ** The non-suspending consumer *)

(** C9: on an empty queue [recv_nowait] raises [QueueEmpty] at once, neither
    suspending nor changing anything; on a non-empty queue it returns the
    oldest message and leaves the rest queued. *)
Theorem recv_nowait_empty_or_head (w : World) (r : nat) (q : Queue) :
  queue w = Some r ->
  heap w !! r = Some q ->
  match _queue q with
  | [] => recv_nowait w = (Raised QueueEmpty, w)
  | m :: rest =>
      fst (recv_nowait w) = Returned m /\
      exists q', heap (snd (recv_nowait w)) !! r = Some q' /\ _queue q' = rest
  end.
Proof.
  intros Hr Hq.
  unfold recv_nowait, getattr, mbind, M_bind, bind. rewrite Hr.
  destruct (_queue q) as [|m rest] eqn:Hitems.
  - apply (Queue_get_nowait_empty w r q Hq Hitems).
  - rewrite (Queue_get_nowait_head w r q m rest Hq Hitems).
    destruct (_putters q) as [|p ps]; simpl; (split; [reflexivity|]);
      eexists; (split; [apply list_lookup_insert_eq; eapply lookup_lt_Some; exact Hq|]);
      reflexivity.
Qed.

(** ** The user profile *)

Section Profile.
Variable ME : string.
Variable hostname : string.
Variable base_get_current_user : Request -> pyval.

(** C10: whatever the user-profile endpoint writes is a JSON object whose
    ['owner'] is the process's user [ME], whoever is authenticated: with
    a user, it writes exactly one object, the hub's user model (or the
    token one) with ['owner'] set to [ME], replacing any owner the hub
    supplied. *)
Theorem user_profile_owner_is_ME (w : World) :
  let user :=
    match _current_user w with
    | Some u => u
    | None => base_get_current_user (request w)
    end in
  let info :=
    match base_get_current_user (request w) with
    | PDict d => d
    | _ => token_user_info ME hostname
    end in
  let w' := snd (UserProfileHandler_get ME hostname base_get_current_user w) in
  written w'
  = written w ++ (if truthy user then [PDict (<["owner" := PStr ME]> info)] else []) /\
  (<["owner" := PStr ME]> info : gmap string pyval) !! "owner" = Some (PStr ME) /\
  Forall (fun chunk => exists d : gmap string pyval,
              chunk = PDict d /\ d !! "owner" = Some (PStr ME))
         (drop (length (written w)) (written w')).
Proof.
  intros user info w'.
  assert (Hw : written w'
    = written w ++ (if truthy user then [PDict (<["owner" := PStr ME]> info)] else [])).
  { subst user info w'.
    unfold UserProfileHandler_get, web_authenticated, current_user,
      get_current_user, authorise, write, modify, gets, ret, raise,
      mbind, M_bind, bind.
    destruct (_current_user w) as [u|] eqn:Hc; simpl.
    - destruct (truthy u); simpl; [|symmetry; apply app_nil_r].
      reflexivity.
    - destruct (truthy (base_get_current_user (request w))); simpl;
        [|symmetry; apply app_nil_r].
      reflexivity. }
  split; [exact Hw|]. split; [apply lookup_insert_eq|].
  rewrite Hw, drop_app_length.
  destruct (truthy user); constructor; [|constructor].
  eexists. split; [reflexivity|]. apply lookup_insert_eq.
Qed.
End Profile.

(** ** Frames through the queue *)

Lemma initialize_allocates (srv res : ObjRef) (w : World) :
  initialize srv res w
  = (Returned tt,
     set_attrs (Some (length (heap w))) (Some srv) (Some res)
       (set_heap (fun h => h ++ [Queue_new 100]) w)).
Proof. reflexivity. Qed.

Lemma initialize_queue (srv res : ObjRef) (w : World) :
  queue (snd (initialize srv res w)) = Some (length (heap w)) /\
  heap (snd (initialize srv res w)) !! length (heap w) = Some (Queue_new 100).
Proof.
  rewrite initialize_allocates. simpl. split; [reflexivity|].
  apply list_lookup_middle. reflexivity.
Qed.

Lemma not_full_below_100 (q : Queue) :
  maxsize q = 100%Z -> length (_queue q) < 100 -> Queue_full q = false.
Proof.
  intros Hmax Hlen. unfold Queue_full, qsize. rewrite Hmax. simpl.
  apply Z.leb_gt. lia.
Qed.

Lemma full_at_100 (q : Queue) :
  maxsize q = 100%Z -> length (_queue q) = 100 -> Queue_full q = true.
Proof.
  intros Hmax Hlen. unfold Queue_full, qsize. rewrite Hmax, Hlen. reflexivity.
Qed.

Lemma deliver_enqueues_all (frames : list msg) :
  forall (w : World) (r : nat) (q : Queue),
    queue w = Some r ->
    heap w !! r = Some q ->
    maxsize q = 100%Z ->
    _getters q = [] ->
    length (_queue q) + length frames <= 100 ->
    deliver frames w
    = (map (fun _ => Returned tt) frames,
       set_heap (fun h => <[r := with_queue (_queue q ++ frames) q]> h) w).
Proof.
  induction frames as [|m rest IH]; intros w r q Hr Hq Hmax Hget Hlen.
  - simpl. rewrite app_nil_r, with_queue_same, (set_heap_same w r q Hq).
    reflexivity.
  - simpl in Hlen. simpl.
    rewrite (on_message_enqueues w r q m Hr Hq); [|apply not_full_below_100; [assumption|lia]|assumption].
    rewrite (IH _ r (with_queue (_queue q ++ [m]) q)); try assumption.
    + rewrite set_heap_twice. simpl. rewrite <- app_assoc. reflexivity.
    + apply (lookup_store w r q _ Hq).
    + simpl. rewrite length_app. simpl. lia.
Qed.

Lemma recv_n_dequeues_all (frames : list msg) :
  forall (w : World) (r : nat) (q : Queue) (later : list msg),
    queue w = Some r ->
    heap w !! r = Some q ->
    _queue q = frames ++ later ->
    _putters q = [] ->
    recv_n (length frames) w
    = (map Returned frames,
       set_heap (fun h => <[r := with_queue later q]> h) w).
Proof.
  induction frames as [|m rest IH]; intros w r q later Hr Hq Hitems Hput.
  - simpl in *. rewrite <- Hitems, with_queue_same, (set_heap_same w r q Hq).
    reflexivity.
  - simpl in *.
    rewrite (recv_dequeues w r q m (rest ++ later) Hr Hq Hitems Hput).
    rewrite (IH _ r (with_queue (rest ++ later) q) later); try assumption.
    + rewrite set_heap_twice. reflexivity.
    + apply (lookup_store w r q _ Hq).
    + reflexivity.
Qed.

(** C4: up to 100 frames given to [on_message] before any is consumed are
    all queued (no call suspends), and as many calls of [recv] then return
    exactly those frames, in arrival order, leaving the queue empty. *)
Theorem frames_received_in_arrival_order
    (w : World) (srv res : ObjRef) (arrived : list msg) :
  length arrived <= 100 ->
  let w1 := snd (initialize srv res w) in
  let w2 := snd (deliver arrived w1) in
  let w3 := snd (recv_n (length arrived) w2) in
  fst (deliver arrived w1) = map (fun _ => Returned tt) arrived /\
  fst (recv_n (length arrived) w2) = map Returned arrived /\
  (_queue <$> heap w3 !! length (heap w)) = Some [].
Proof.
  intros Hlen w1 w2 w3.
  destruct (initialize_queue srv res w) as [Hr Hq]. fold w1 in Hr, Hq.
  pose proof (deliver_enqueues_all arrived w1 _ _ Hr Hq eq_refl eq_refl) as Hd.
  simpl in Hd. specialize (Hd Hlen).
  assert (Hq2 : heap w2 !! length (heap w)
                = Some (with_queue arrived (Queue_new 100))).
  { subst w2. rewrite Hd. apply (lookup_store w1 _ _ _ Hq). }
  assert (Hr2 : queue w2 = Some (length (heap w))).
  { subst w2. rewrite Hd. exact Hr. }
  pose proof (recv_n_dequeues_all arrived w2 _ _ [] Hr2 Hq2) as Hg.
  simpl in Hg. rewrite app_nil_r in Hg. specialize (Hg eq_refl eq_refl).
  split; [rewrite Hd; reflexivity|].
  split; [rewrite Hg; reflexivity|].
  subst w3. rewrite Hg. simpl.
  rewrite list_lookup_insert_eq; [reflexivity|].
  eapply lookup_lt_Some. exact Hq2.
Qed.

(** ** Backpressure *)

Lemma run_once_resumes_put (w : World) (r : nat) (q : Queue) (m : msg) :
  ready w = [PutCoro r m] ->
  heap w !! r = Some q ->
  Queue_full q = false ->
  _getters q = [] ->
  run_once w
  = (Returned (Some PutDone),
     set_heap (fun h => <[r := with_queue (_queue q ++ [m]) q]> h)
       (set_ready (fun _ => []) w)).
Proof.
  intros Hready Hq Hfull Hget.
  unfold run_once, resume, gets, modify, ret, mbind, M_bind, bind.
  rewrite Hready.
  rewrite (Queue_put_enqueues (set_ready (fun _ => []) w) r q m Hq Hfull Hget).
  reflexivity.
Qed.

(** C5: the queue made by [initialize] holds 100 frames.  With 100 frames
    queued and none consumed, [on_message] for a 101st suspends the producer
    and drops nothing: the 100 frames stay queued and the producer is parked
    with its frame.  One [recv] then returns the first frame and wakes the
    producer, whose put completes on the next turn of the loop, queuing the
    101st frame behind the other 99. *)
Theorem put_101st_suspends_until_get
    (w : World) (srv res : ObjRef) (m1 : msg) (rest : list msg) (m101 : msg) :
  length rest = 99 ->
  ready w = [] ->
  let r := length (heap w) in
  let w1 := snd (initialize srv res w) in
  let w2 := snd (deliver (m1 :: rest) w1) in
  let s3 := on_message m101 w2 in
  let s4 := recv (snd s3) in
  let s5 := run_once (snd s4) in
  (maxsize <$> heap w1 !! r) = Some 100%Z /\
  fst (deliver (m1 :: rest) w1) = map (fun _ => Returned tt) (m1 :: rest) /\
  fst s3 = Suspended (PutCoro r m101) /\
  (_queue <$> heap (snd s3) !! r) = Some (m1 :: rest) /\
  (_putters <$> heap (snd s3) !! r) = Some [PutCoro r m101] /\
  fst s4 = Returned m1 /\
  ready (snd s4) = [PutCoro r m101] /\
  fst s5 = Returned (Some PutDone) /\
  (_queue <$> heap (snd s5) !! r) = Some (rest ++ [m101]) /\
  (_putters <$> heap (snd s5) !! r) = Some [].
Proof.
  intros Hlen Hready r w1 w2 s3 s4 s5.
  destruct (initialize_queue srv res w) as [Hr Hq]. fold w1 r in Hr, Hq.
  pose proof (deliver_enqueues_all (m1 :: rest) w1 _ _ Hr Hq eq_refl eq_refl) as Hd.
  simpl app in Hd. simpl length in Hd. specialize (Hd ltac:(lia)).
  fold w2 in Hd.
  set (q2 := with_queue (m1 :: rest) (Queue_new 100)) in *.
  assert (Hr2 : queue w2 = Some r) by (subst w2; rewrite Hd; exact Hr).
  assert (Hq2 : heap w2 !! r = Some q2)
    by (subst w2; rewrite Hd; apply (lookup_store w1 _ _ _ Hq)).
  assert (Hfull : Queue_full q2 = true)
    by (apply full_at_100; [reflexivity|simpl; lia]).
  pose proof (on_message_suspends w2 r q2 m101 Hr2 Hq2 Hfull) as H3.
  fold s3 in H3.
  set (q3 := with_putters (_putters q2 ++ [PutCoro r m101]) q2) in *.
  assert (Hq3 : heap (snd s3) !! r = Some q3)
    by (rewrite H3; apply (lookup_store w2 _ _ _ Hq2)).
  assert (Hr3 : queue (snd s3) = Some r) by (rewrite H3; exact Hr2).
  assert (H4 : s4 = (Returned m1,
     set_ready (fun l => l ++ [PutCoro r m101])
       (set_heap (fun h => <[r := with_putters [] (with_queue rest q3)]> h)
          (snd s3)))).
  { subst s4. unfold recv, getattr, Queue_get, mbind, M_bind, bind, deref, Queue_empty.
    rewrite Hr3, Hq3. simpl.
    rewrite (Queue_get_nowait_head (snd s3) r q3 m1 rest Hq3 eq_refl).
    reflexivity. }
  set (q4 := with_putters [] (with_queue rest q3)) in *.
  assert (Hready4 : ready (snd s4) = [PutCoro r m101]).
  { rewrite H4, H3. simpl. subst w2. rewrite Hd. simpl. rewrite Hready.
    reflexivity. }
  assert (Hq4 : heap (snd s4) !! r = Some q4).
  { rewrite H4. simpl. apply list_lookup_insert_eq.
    eapply lookup_lt_Some. exact Hq3. }
  assert (Hnotfull : Queue_full q4 = false)
    by (apply not_full_below_100; [reflexivity|simpl; lia]).
  pose proof (run_once_resumes_put (snd s4) r q4 m101 Hready4 Hq4 Hnotfull eq_refl) as H5.
  fold s5 in H5.
  assert (Hq5 : heap (snd s5) !! r = Some (with_queue (rest ++ [m101]) q4)).
  { rewrite H5. simpl. apply list_lookup_insert_eq.
    eapply lookup_lt_Some. exact Hq4. }
  repeat split.
  - rewrite Hq. reflexivity.
  - rewrite Hd. reflexivity.
  - rewrite H3. reflexivity.
  - rewrite Hq3. reflexivity.
  - rewrite Hq3. reflexivity.
  - rewrite H4. reflexivity.
  - exact Hready4.
  - rewrite H5. reflexivity.
  - rewrite Hq5. reflexivity.
  - rewrite Hq5. reflexivity.
Qed.

(** ** The queue is never replaced *)

Create HintDb keeps.

Lemma keeps_ret {A} (a : A) : keeps_queue (ret a).
Proof. intros w. split; reflexivity. Qed.

Lemma keeps_raise {A} (e : exn) : keeps_queue (@raise A e).
Proof. intros w. split; reflexivity. Qed.

Lemma keeps_suspend {A} (c : coro) : keeps_queue (@suspend A c).
Proof. intros w. split; reflexivity. Qed.

Lemma keeps_gets {A} (f : World -> A) : keeps_queue (gets f).
Proof. intros w. split; reflexivity. Qed.

Lemma keeps_getattr {A} (name : string) (f : World -> option A) :
  keeps_queue (getattr name f).
Proof. intros w. unfold getattr. destruct (f w); split; reflexivity. Qed.

Lemma keeps_deref (r : nat) : keeps_queue (deref r).
Proof. intros w. unfold deref. destruct (heap w !! r); split; reflexivity. Qed.

Lemma keeps_store (r : nat) (q : Queue) : keeps_queue (store r q).
Proof. intros w. split; [reflexivity|]. simpl. apply length_insert. Qed.

Lemma keeps_call_soon (c : coro) : keeps_queue (call_soon c).
Proof. intros w. split; reflexivity. Qed.

Lemma keeps_set_ready (f : list coro -> list coro) :
  keeps_queue (modify (set_ready f)).
Proof. intros w. split; reflexivity. Qed.

Lemma keeps_set_current_user (u : option pyval) :
  keeps_queue (modify (set_current_user u)).
Proof. intros w. split; reflexivity. Qed.

Lemma keeps_set_selected_subprotocol (p : option string) :
  keeps_queue (modify (set_selected_subprotocol p)).
Proof. intros w. split; reflexivity. Qed.

Lemma keeps_spawn_callback (t : Task) : keeps_queue (spawn_callback t).
Proof. intros w. split; reflexivity. Qed.

Lemma keeps_authorise (user : pyval) :
  keeps_queue (@authorise CylcAppHandler_policy user).
Proof. intros w. split; reflexivity. Qed.

Lemma keeps_bind {A B} (m : M A) (k : A -> M B) :
  keeps_queue m -> (forall a, keeps_queue (k a)) -> keeps_queue (m ≫= k).
Proof.
  intros Hm Hk w. unfold mbind, M_bind, bind.
  destruct (Hm w) as [Hq Hh].
  destruct (m w) as [[a|e|c] w1]; simpl in *; try (split; assumption).
  destruct (Hk a w1) as [Hq1 Hh1]. split; congruence.
Qed.

#[local] Hint Resolve keeps_ret keeps_raise keeps_suspend keeps_gets keeps_getattr
  keeps_deref keeps_store keeps_call_soon keeps_set_ready
  keeps_set_current_user keeps_set_selected_subprotocol keeps_spawn_callback
  keeps_authorise : keeps.

Ltac keeps_step :=
  match goal with
  | |- keeps_queue (_ ≫= _) => apply keeps_bind; [|intros]
  | |- keeps_queue (match ?x with _ => _ end) => destruct x
  | |- keeps_queue _ => solve [auto with keeps]
  end.

Lemma keeps_Queue_put (r : nat) (m : msg) : keeps_queue (Queue_put r m).
Proof.
  unfold Queue_put, Queue_put_nowait, wakeup_next_getter. repeat keeps_step.
Qed.

Lemma keeps_Queue_get_nowait (r : nat) : keeps_queue (Queue_get_nowait r).
Proof. unfold Queue_get_nowait, wakeup_next_putter. repeat keeps_step. Qed.

Lemma keeps_Queue_get (r : nat) : keeps_queue (Queue_get r).
Proof.
  unfold Queue_get. repeat keeps_step. apply keeps_Queue_get_nowait.
Qed.

#[local] Hint Resolve keeps_Queue_put keeps_Queue_get_nowait keeps_Queue_get : keeps.

Lemma keeps_run_once : keeps_queue run_once.
Proof. unfold run_once, resume. repeat keeps_step. Qed.

Lemma keeps_on_message (m : msg) : keeps_queue (on_message m).
Proof. unfold on_message. repeat keeps_step. Qed.

Lemma keeps_recv : keeps_queue recv.
Proof. unfold recv. repeat keeps_step. Qed.

Lemma keeps_recv_nowait : keeps_queue recv_nowait.
Proof. unfold recv_nowait. repeat keeps_step. Qed.

Lemma keeps_set_status (status : Z) : keeps_queue (modify (set_status status)).
Proof. intros w. split; reflexivity. Qed.

Lemma keeps_swallow (method : M unit) :
  keeps_queue method -> keeps_queue (swallow method).
Proof.
  intros Hm w. unfold swallow. specialize (Hm w).
  destruct (method w) as [[[]|e|c] w']; exact Hm.
Qed.

#[local] Hint Resolve keeps_set_status : keeps.

Section Connection.
Variable base_get_current_user : Request -> pyval.
Variable assertions_enabled : bool.
Variable transport_refusal : Request -> option Z.

Lemma keeps_current_user : keeps_queue (current_user base_get_current_user).
Proof.
  unfold current_user, get_current_user. repeat keeps_step.
Qed.

Lemma keeps_websockets_authenticated {A} (method : M A) :
  keeps_queue method ->
  keeps_queue (websockets_authenticated base_get_current_user method).
Proof.
  intros Hm. unfold websockets_authenticated.
  apply keeps_bind; [apply keeps_current_user|].
  intros u. destruct (truthy u); auto with keeps.
Qed.

Lemma keeps_open : keeps_queue (open base_get_current_user).
Proof.
  unfold open, context. apply keeps_websockets_authenticated.
  repeat keeps_step.
Qed.

Lemma keeps_get :
  keeps_queue (get base_get_current_user assertions_enabled transport_refusal).
Proof.
  unfold get, WebSocketHandler_get, select_subprotocol.
  apply keeps_websockets_authenticated.
  repeat keeps_step. apply keeps_swallow. apply keeps_open.
Qed.

Lemma step_keeps_queue (w : World) (e : event) :
  queue (step base_get_current_user assertions_enabled transport_refusal w e) = queue w /\
  length (heap (step base_get_current_user assertions_enabled transport_refusal w e))
  = length (heap w).
Proof.
  destruct e; simpl.
  - split; reflexivity.
  - apply keeps_get.
  - apply keeps_open.
  - apply keeps_on_message.
  - apply keeps_recv.
  - apply keeps_recv_nowait.
  - apply keeps_run_once.
Qed.

Lemma run_keeps_queue (events : list event) :
  forall w : World,
    queue (run base_get_current_user assertions_enabled transport_refusal events w) = queue w /\
    length (heap (run base_get_current_user assertions_enabled transport_refusal events w))
    = length (heap w).
Proof.
  induction events as [|e events IH]; intros w; simpl.
  - split; reflexivity.
  - destruct (IH (step base_get_current_user assertions_enabled transport_refusal w e)) as [Hq Hh].
    destruct (step_keeps_queue w e) as [Hq1 Hh1].
    split; congruence.
Qed.
End Connection.

(** ** The handshake *)

Section Handshake.
Variable base_get_current_user : Request -> pyval.
Variable assertions_enabled : bool.
Variable transport_refusal : Request -> option Z.

Lemma connect_outcome (c : HandlerClass) (req : Request) (h : list Queue)
    (rd : list coro) (sp : list Task) (srv res : ObjRef) :
  let w0 := new_handler c req h rd sp in
  let user := base_get_current_user req in
  let offered := sec_websocket_protocol req in
  let entry := {| levelname := DEBUG; msg_user := user; msg_class := c |} in
  let task :=
    {| task_server := srv;
       task_context := {| ctx_request := req; ctx_resolvers := res |} |} in
  let s := connect base_get_current_user assertions_enabled transport_refusal
             srv res w0 in
  heap (snd s) = h ++ [Queue_new 100] /\
  queue (snd s) = Some (length h) /\
  log (snd s) = [entry] /\
  _current_user (snd s) = Some user /\
  if truthy user then
    match transport_refusal req with
    | Some status =>
        fst s = Returned tt /\
        _status_code (snd s) = status /\
        selected_subprotocol (snd s) = None /\
        spawned (snd s) = sp
    | None =>
        selected_subprotocol (snd s) = Some GRAPHQL_WS /\
        if assertions_enabled && negb (bool_decide (GRAPHQL_WS ∈ offered)) then
          fst s = Raised AssertionError /\
          _status_code (snd s) = 200%Z /\
          spawned (snd s) = sp
        else
          fst s = Returned tt /\
          _status_code (snd s) = 101%Z /\
          spawned (snd s) = sp ++ [task]
    end
  else
    fst s = Raised (HTTPError 403 None) /\
    _status_code (snd s) = 200%Z /\
    selected_subprotocol (snd s) = None /\
    spawned (snd s) = sp.
Proof.
  intros w0 user offered entry task s. subst s w0 offered task.
  unfold connect, get, WebSocketHandler_get, swallow, open,
    websockets_authenticated, current_user, get_current_user, authorise,
    initialize, alloc, context, getattr, spawn_callback, select_subprotocol,
    modify, gets, ret, raise, mbind, M_bind, bind.
  simpl. fold user.
  destruct (truthy user) eqn:Htruthy; simpl; [|repeat split; reflexivity].
  destruct (transport_refusal req) as [status|]; simpl;
    [repeat split; reflexivity|].
  destruct (assertions_enabled
            && negb (bool_decide (GRAPHQL_WS ∈ sec_websocket_protocol req)));
    simpl; rewrite ?Htruthy; simpl; repeat split; reflexivity.
Qed.


(** C6 (as amended): when the resolver yields no principal,
    [get_current_user] still calls [authorise] with that absent principal,
    which is allowed and leaves its debug record, and hands back the absent
    principal; the handshake is then refused with HTTP 403 and no
    subscription task is spawned. *)
Theorem unresolved_principal_is_authorised_but_nothing_spawned
    (c : HandlerClass) (req : Request) (h : list Queue)
    (rd : list coro) (sp : list Task) (srv res : ObjRef) :
  base_get_current_user req = PNone ->
  let w0 := new_handler c req h rd sp in
  let entry := {| levelname := DEBUG; msg_user := PNone; msg_class := c |} in
  let s := connect base_get_current_user assertions_enabled transport_refusal srv res w0 in
  get_current_user base_get_current_user w0
  = (Returned PNone, set_log (fun l => l ++ [entry]) w0) /\
  fst s = Raised (HTTPError 403 None) /\
  log (snd s) = [entry] /\
  spawned (snd s) = sp.
Proof.
  intros Hnone w0 entry s.
  destruct (connect_outcome c req h rd sp srv res) as (_ & _ & Hlog & _ & Hres).
  fold w0 s in Hlog, Hres. rewrite Hnone in Hlog, Hres. simpl in Hres.
  destruct Hres as (Hf & _ & _ & Hs).
  repeat split; try assumption.
  unfold get_current_user, authorise, gets, ret, mbind, M_bind, bind.
  simpl. rewrite Hnone. reflexivity.
Qed.

(** C8 (as amended): a connection's queue is created exactly once, by
    [initialize] when the handler is built, before the handshake and
    [open]: before that the handler has no queue and [on_message] cannot
    queue anything; afterwards no negotiation, [get], [open],
    [on_message], [recv], [recv_nowait] or loop turn replaces [self.queue]
    or allocates another queue. *)
Theorem queue_created_once_by_initialize
    (c : HandlerClass) (req : Request) (h : list Queue)
    (rd : list coro) (sp : list Task) (srv res : ObjRef)
    (m : msg) (events : list event) :
  let w0 := new_handler c req h rd sp in
  let w1 := snd (initialize srv res w0) in
  let w2 := run base_get_current_user assertions_enabled transport_refusal events w1 in
  queue w0 = None /\
  on_message m w0 = (Raised (AttributeError "queue"), w0) /\
  queue w1 = Some (length h) /\
  heap w1 = h ++ [Queue_new 100] /\
  queue w2 = queue w1 /\
  length (heap w2) = length (heap w1).
Proof.
  intros w0 w1 w2.
  destruct (run_keeps_queue base_get_current_user assertions_enabled transport_refusal events w1)
    as [Hq Hh].
  repeat split; assumption.
Qed.
End Handshake.

(** ** The properties on sample connections *)



(** C6, the claim as written fails when the resolver yields no principal:
    [get_current_user] has called [authorise] with the absent principal, as
    the debug record of the decision shows. *)
Lemma absent_principal_reaches_authorise :
  let w0 := sample_handler [GRAPHQL_WS] in
  let entry :=
    {| levelname := DEBUG; msg_user := PNone; msg_class := SubscriptionHandler |} in
  resolves_to PNone (request w0) = PNone /\
  log w0 = [] /\
  In entry (log (snd (get_current_user (resolves_to PNone) w0))) /\
  In entry (log (snd (connect (resolves_to PNone) true well_formed
                        sample_server sample_resolvers w0))).
Proof.
  repeat split; try reflexivity; left; reflexivity.
Qed.

(** C8, the claim as written fails on the sample connection: the queue is
    there before [open] (made by [initialize]), and [open], which fires,
    creates none. *)
Lemma queue_exists_before_open :
  let w0 := sample_handler [GRAPHQL_WS] in
  let w1 := sample_initialized [GRAPHQL_WS] in
  let s := open (resolves_to (PStr "alice")) w1 in
  queue w0 = None /\
  queue w1 = Some 0 /\
  queue w1 <> None /\
  heap w1 = [Queue_new 100] /\
  fst s = Returned tt /\
  length (spawned (snd s)) = 1 /\
  heap (snd s) = heap w1 /\
  queue (snd s) = queue w1.
Proof.
  repeat split; try reflexivity. discriminate.
Qed.

(** C4 on 100 sample frames. *)
Lemma frames_received_in_arrival_order_sample :
  length (frames 100) <= 100 /\
  fst (recv_n 100
         (snd (deliver (frames 100) (sample_initialized [GRAPHQL_WS]))))
  = map Returned (frames 100).
Proof.
  assert (Hlen : length (frames 100) <= 100) by (vm_compute; lia).
  split; [exact Hlen|].
  destruct (frames_received_in_arrival_order (sample_handler [GRAPHQL_WS])
              sample_server sample_resolvers (frames 100) Hlen)
    as (_ & Hrecv & _).
  exact Hrecv.
Defined.

(** C5 on 101 sample frames. *)
Lemma put_101st_suspends_until_get_sample :
  let rest := map frame (seq 1 99) in
  let w2 := snd (deliver (frame 0 :: rest) (sample_initialized [GRAPHQL_WS])) in
  let s3 := on_message (frame 100) w2 in
  let s4 := recv (snd s3) in
  let s5 := run_once (snd s4) in
  length rest = 99 /\
  ready (sample_handler [GRAPHQL_WS]) = [] /\
  fst s3 = Suspended (PutCoro 0 (frame 100)) /\
  fst s4 = Returned (frame 0) /\
  fst s5 = Returned (Some PutDone) /\
  (_queue <$> heap (snd s5) !! 0) = Some (rest ++ [frame 100]).
Proof.
  intros rest w2 s3 s4 s5.
  assert (Hlen : length rest = 99) by (vm_compute; reflexivity).
  assert (Hready : ready (sample_handler [GRAPHQL_WS]) = []) by reflexivity.
  destruct (put_101st_suspends_until_get (sample_handler [GRAPHQL_WS])
              sample_server sample_resolvers (frame 0) rest (frame 100)
              Hlen Hready)
    as (_ & _ & H3 & _ & _ & H4 & _ & H5 & H6 & _).
  split; [exact Hlen|]. split; [exact Hready|]. split; [exact H3|].
  split; [exact H4|]. split; [exact H5|exact H6].
Defined.

(** C6 on the sample handler with a resolver that finds nobody. *)
Lemma unresolved_principal_sample :
  let w0 := sample_handler [GRAPHQL_WS] in
  let s := connect (resolves_to PNone) true well_formed
             sample_server sample_resolvers w0 in
  resolves_to PNone (request w0) = PNone /\
  fst s = Raised (HTTPError 403 None) /\
  spawned (snd s) = [].
Proof.
  intros w0 s.
  destruct (unresolved_principal_is_authorised_but_nothing_spawned
              (resolves_to PNone) true well_formed SubscriptionHandler
              (sample_request [GRAPHQL_WS]) [] [] []
              sample_server sample_resolvers eq_refl)
    as (_ & Hf & _ & Hs).
  split; [reflexivity|]. split; [exact Hf|exact Hs].
Defined.

(** C9 on the sample handler: empty just after [initialize], and holding
    one frame after one [on_message]. *)
Lemma recv_nowait_sample :
  let w1 := sample_initialized [GRAPHQL_WS] in
  let w2 := snd (on_message (frame 0) w1) in
  queue w1 = Some 0 /\
  heap w1 !! 0 = Some (Queue_new 100) /\
  recv_nowait w1 = (Raised QueueEmpty, w1) /\
  fst (recv_nowait w2) = Returned (frame 0).
Proof.
  intros w1 w2.
  assert (Hr : queue w1 = Some 0) by reflexivity.
  assert (Hq : heap w1 !! 0 = Some (Queue_new 100)) by reflexivity.
  assert (Hr2 : queue w2 = Some 0) by reflexivity.
  assert (Hq2 : heap w2 !! 0 = Some (with_queue [frame 0] (Queue_new 100)))
    by reflexivity.
  split; [exact Hr|]. split; [exact Hq|]. split.
  - exact (recv_nowait_empty_or_head w1 0 _ Hr Hq).
  - exact (proj1 (recv_nowait_empty_or_head w2 0 _ Hr2 Hq2)).
Defined.

(** * Further properties *)

(** ** The queue operations, case by case *)

Lemma Queue_put_result (w : World) (r : nat) (q : Queue) (m : msg) :
  heap w !! r = Some q ->
  Queue_put r m w
  = if Queue_full q then
      (Suspended (PutCoro r m),
       set_heap (fun h => <[r := with_putters (_putters q ++ [PutCoro r m]) q]> h) w)
    else
      match _getters q with
      | [] =>
          (Returned tt,
           set_heap (fun h => <[r := with_queue (_queue q ++ [m]) q]> h) w)
      | g :: gs =>
          (Returned tt,
           set_ready (fun l => l ++ [g])
             (set_heap
                (fun h => <[r := with_getters gs (with_queue (_queue q ++ [m]) q)]> h)
                w))
      end.
Proof.
  intros Hq.
  destruct (Queue_full q) eqn:Hfull.
  - unfold Queue_put, deref, store, modify, suspend, mbind, M_bind, bind.
    rewrite Hq, Hfull. reflexivity.
  - destruct (_getters q) as [|g gs] eqn:Hget.
    + apply (Queue_put_enqueues w r q m Hq Hfull Hget).
    + unfold Queue_put, Queue_put_nowait, wakeup_next_getter, deref, store,
        call_soon, modify, mbind, M_bind, bind.
      rewrite Hq, Hfull, Hq, Hfull.
      rewrite (lookup_store w r q _ Hq). simpl. rewrite Hget.
      rewrite set_heap_twice. reflexivity.
Qed.

Lemma Queue_get_result (w : World) (r : nat) (q : Queue) :
  heap w !! r = Some q ->
  Queue_get r w
  = match _queue q with
    | [] =>
        (Suspended (GetCoro r),
         set_heap (fun h => <[r := with_getters (_getters q ++ [GetCoro r]) q]> h) w)
    | _ :: _ => Queue_get_nowait r w
    end.
Proof.
  intros Hq.
  unfold Queue_get, Queue_empty, deref, store, modify, suspend,
    mbind, M_bind, bind.
  rewrite Hq. destruct (_queue q); reflexivity.
Qed.

Lemma run_once_result (w : World) :
  run_once w
  = match ready w with
    | [] => (Returned None, w)
    | c :: rest =>
        match resume c (set_ready (fun _ => rest) w) with
        | (Returned d, w') => (Returned (Some d), w')
        | (Raised e, w') => (Raised e, w')
        | (Suspended c', w') => (Suspended c', w')
        end
    end.
Proof.
  unfold run_once, gets, modify, ret, mbind, M_bind, bind.
  destruct (ready w) as [|c rest]; [reflexivity|].
  destruct (resume c (set_ready (fun _ => rest) w)) as [[d|e|c'] w'];
    reflexivity.
Qed.

(** ** Frames in flight *)

Lemma put_items_app (l1 l2 : list coro) :
  put_items (l1 ++ l2) = put_items l1 ++ put_items l2.
Proof. apply flat_map_app. Qed.

Lemma put_items_getters (r : nat) (l : list coro) :
  Forall (fun c => coro_queue c = r /\ is_get c) l -> put_items l = [].
Proof.
  induction 1 as [|c l [_ Hc] _ IH]; [reflexivity|].
  destruct c; [destruct Hc|]. exact IH.
Qed.

Lemma in_flight_lookup (r : nat) (w : World) (q : Queue) :
  heap w !! r = Some q ->
  in_flight r w = _queue q ++ put_items (_putters q) ++ put_items (ready w).
Proof. intros Hq. unfold in_flight. rewrite Hq. reflexivity. Qed.

Lemma heap_after_update (w : World) (r : nat) (q q' : Queue)
    (f : list coro -> list coro) :
  heap w !! r = Some q ->
  heap (set_ready f (set_heap (fun h => <[r := q']> h) w)) !! r = Some q'.
Proof.
  intros Hq. simpl. apply list_lookup_insert_eq.
  eapply lookup_lt_Some. exact Hq.
Qed.

(** Permutations of concatenations, settled by counting occurrences. *)
Ltac count_frames :=
  apply (Permutation_count_occ string_dec); intros ?x;
  repeat match goal with
         | H : Permutation ?l1 ?l2 |- _ =>
             let Hx := fresh "Hcount" in
             pose proof (proj1 (Permutation_count_occ string_dec l1 l2) H x) as Hx;
             clear H
         end;
  repeat rewrite ?count_occ_app, ?put_items_app in *;
  simpl put_items in *; simpl app in *;
  repeat rewrite ?count_occ_app in *;
  repeat match goal with
         | |- context [count_occ string_dec (?a :: ?l) x] =>
             lazymatch l with
             | [] => fail
             | _ => change (a :: l) with ([a] ++ l); rewrite count_occ_app
             end
         | H : context [count_occ string_dec (?a :: ?l) x] |- _ =>
             lazymatch l with
             | [] => fail
             | _ => change (a :: l) with ([a] ++ l) in H;
                    rewrite count_occ_app in H
             end
         end;
  repeat rewrite ?count_occ_app in *;
  change (count_occ string_dec [] x) with 0 in *;
  unfold msg in *;
  lia.

Lemma not_full_room (q : Queue) :
  maxsize q = 100%Z -> Queue_full q = false -> length (_queue q) < 100.
Proof.
  unfold Queue_full, qsize. intros Hmax. rewrite Hmax. simpl.
  intros Hfull. apply Z.leb_gt in Hfull. lia.
Qed.

Ltac heap_lookup Hq :=
  simpl; apply list_lookup_insert_eq; eapply lookup_lt_Some; exact Hq.

Lemma Queue_put_step (r : nat) (w : World) (m : msg) :
  tidy r w ->
  tidy r (snd (Queue_put r m w)) /\
  Permutation (in_flight r (snd (Queue_put r m w))) (in_flight r w ++ [m]).
Proof.
  intros (q & Hq & Hmax & Hlen & Hput & Hget & Hrdy).
  rewrite (Queue_put_result w r q m Hq), (in_flight_lookup r w q Hq).
  destruct (Queue_full q) eqn:Hfull; [|destruct (_getters q) as [|g gs] eqn:Hg];
    simpl snd.
  - split.
    + eexists. split; [heap_lookup Hq|]. simpl.
      repeat split; try assumption.
      apply Forall_app. split; [assumption|]. repeat constructor.
    + erewrite in_flight_lookup by (heap_lookup Hq). simpl. count_frames.
  - pose proof (not_full_room q Hmax Hfull) as Hroom. split.
    + eexists. split; [heap_lookup Hq|]. simpl.
      rewrite length_app, Hg. simpl. repeat split; try assumption; lia.
    + erewrite in_flight_lookup by (heap_lookup Hq). simpl. count_frames.
  - pose proof (not_full_room q Hmax Hfull) as Hroom.
    inversion Hget as [|g' gs' [Hgr Hgg] Hgs]; subst.
    split.
    + eexists. split; [heap_lookup Hq|]. simpl.
      rewrite length_app. simpl. repeat split; try assumption; try lia.
      apply Forall_app. split; [assumption|]. repeat constructor.
    + erewrite in_flight_lookup by (heap_lookup Hq). simpl.
      destruct g; [destruct Hgg|]. count_frames.
Qed.

Lemma Queue_get_nowait_step (r : nat) (w : World) :
  tidy r w ->
  tidy r (snd (Queue_get_nowait r w)) /\
  Permutation (in_flight r w)
    (delivered_by_recv (fst (Queue_get_nowait r w))
     ++ in_flight r (snd (Queue_get_nowait r w))).
Proof.
  intros (q & Hq & Hmax & Hlen & Hput & Hget & Hrdy).
  destruct (_queue q) as [|m rest] eqn:Hitems.
  - rewrite (Queue_get_nowait_empty w r q Hq Hitems). simpl. split.
    + exists q. repeat split; try assumption. rewrite Hitems. simpl. lia.
    + reflexivity.
  - rewrite (Queue_get_nowait_head w r q m rest Hq Hitems),
      (in_flight_lookup r w q Hq), Hitems.
    simpl in Hlen.
    destruct (_putters q) as [|p ps] eqn:Hp; simpl fst; simpl snd.
    + split.
      * eexists. split; [heap_lookup Hq|]. simpl. rewrite Hp.
        repeat split; try assumption; try lia; try constructor.
      * erewrite in_flight_lookup by (heap_lookup Hq). simpl. rewrite Hp.
        simpl. count_frames.
    + inversion Hput as [|p' ps' [Hpr Hpp] Hps]; subst.
      split.
      * eexists. split; [heap_lookup Hq|]. simpl.
        repeat split; try assumption; try lia.
        apply Forall_app. split; [assumption|]. repeat constructor.
      * erewrite in_flight_lookup by (heap_lookup Hq).
        destruct p; [|destruct Hpp]. simpl. count_frames.
Qed.

Lemma Queue_get_step (r : nat) (w : World) :
  tidy r w ->
  tidy r (snd (Queue_get r w)) /\
  Permutation (in_flight r w)
    (delivered_by_recv (fst (Queue_get r w)) ++ in_flight r (snd (Queue_get r w))).
Proof.
  intros Htidy. pose proof Htidy as (q & Hq & Hmax & Hlen & Hput & Hget & Hrdy).
  rewrite (Queue_get_result w r q Hq).
  destruct (_queue q) as [|m rest] eqn:Hitems.
  - simpl fst. simpl snd. split.
    + eexists. split; [heap_lookup Hq|]. simpl. rewrite Hitems.
      repeat split; try assumption; simpl; try lia.
      apply Forall_app. split; [assumption|]. repeat constructor.
    + rewrite (in_flight_lookup r w q Hq).
      erewrite in_flight_lookup by (heap_lookup Hq). reflexivity.
  - apply Queue_get_nowait_step. exact Htidy.
Qed.

Lemma run_once_step (r : nat) (w : World) :
  tidy r w ->
  tidy r (snd (run_once w)) /\
  Permutation (in_flight r w)
    (delivered_by_turn (fst (run_once w)) ++ in_flight r (snd (run_once w))).
Proof.
  intros Htidy. pose proof Htidy as (q & Hq & Hmax & Hlen & Hput & Hget & Hrdy).
  rewrite run_once_result.
  destruct (ready w) as [|c rest] eqn:Hready; [split; [exact Htidy|reflexivity]|].
  inversion Hrdy as [|c' rest' Hc Hrest]; subst c' rest'.
  set (w1 := set_ready (fun _ => rest) w).
  assert (Htidy1 : tidy r w1) by (exists q; repeat split; assumption).
  assert (Hflight : Permutation (in_flight r w) (in_flight r w1 ++ put_items [c])).
  { rewrite (in_flight_lookup r w q Hq), (in_flight_lookup r w1 q Hq), Hready.
    simpl ready. change (c :: rest) with ([c] ++ rest). count_frames. }
  destruct c as [r' m|r']; simpl in Hc; subst r'; unfold resume, mbind, M_bind, bind, ret.
  - destruct (Queue_put_step r w1 m Htidy1) as [Ht Hp].
    destruct (Queue_put r m w1) as [[[]|e|c'] w'];
      simpl in *; (split; [exact Ht|]); count_frames.
  - destruct (Queue_get_step r w1 Htidy1) as [Ht Hp].
    destruct (Queue_get r w1) as [[item|e|c'] w'];
      simpl in *; (split; [exact Ht|]); count_frames.
Qed.

Lemma on_message_is_put (w : World) (r : nat) (m : msg) :
  queue w = Some r -> on_message m w = Queue_put r m w.
Proof.
  intros Hr. unfold on_message, getattr, mbind, M_bind, bind. rewrite Hr.
  reflexivity.
Qed.

Lemma recv_is_get (w : World) (r : nat) :
  queue w = Some r -> recv w = Queue_get r w.
Proof.
  intros Hr. unfold recv, getattr, mbind, M_bind, bind. rewrite Hr.
  reflexivity.
Qed.

Lemma recv_nowait_is_get_nowait (w : World) (r : nat) :
  queue w = Some r -> recv_nowait w = Queue_get_nowait r w.
Proof.
  intros Hr. unfold recv_nowait, getattr, mbind, M_bind, bind. rewrite Hr.
  reflexivity.
Qed.

Lemma traffic_step_keeps (r : nat) (w : World) (t : traffic) :
  queue w = Some r ->
  tidy r w ->
  queue (snd (traffic_step w t)) = Some r /\
  tidy r (snd (traffic_step w t)) /\
  Permutation (in_flight r w ++ offered_frames [t])
    (fst (traffic_step w t) ++ in_flight r (snd (traffic_step w t))).
Proof.
  intros Hr Htidy. destruct t as [m| | |]; simpl.
  - split; [rewrite <- Hr; apply keeps_on_message|].
    rewrite (on_message_is_put w r m Hr).
    destruct (Queue_put_step r w m Htidy) as [Ht Hp].
    split; [exact Ht|]. count_frames.
  - split; [rewrite <- Hr; apply keeps_recv|].
    rewrite (recv_is_get w r Hr).
    destruct (Queue_get_step r w Htidy) as [Ht Hp].
    split; [exact Ht|]. count_frames.
  - split; [rewrite <- Hr; apply keeps_recv_nowait|].
    rewrite (recv_nowait_is_get_nowait w r Hr).
    destruct (Queue_get_nowait_step r w Htidy) as [Ht Hp].
    split; [exact Ht|]. count_frames.
  - split; [rewrite <- Hr; apply keeps_run_once|].
    destruct (run_once_step r w Htidy) as [Ht Hp].
    split; [exact Ht|]. count_frames.
Qed.

Lemma traffic_run_keeps (r : nat) (ts : list traffic) :
  forall w : World,
    queue w = Some r ->
    tidy r w ->
    queue (snd (traffic_run ts w)) = Some r /\
    tidy r (snd (traffic_run ts w)) /\
    Permutation (in_flight r w ++ offered_frames ts)
      (fst (traffic_run ts w) ++ in_flight r (snd (traffic_run ts w))).
Proof.
  induction ts as [|t ts IH]; intros w Hr Htidy.
  - simpl. repeat split; try assumption. rewrite app_nil_r. reflexivity.
  - destruct (traffic_step_keeps r w t Hr Htidy) as (Hr1 & Ht1 & Hp1).
    simpl traffic_run.
    destruct (traffic_step w t) as [d w1]. simpl in Hr1, Ht1, Hp1.
    destruct (IH w1 Hr1 Ht1) as (Hr2 & Ht2 & Hp2).
    destruct (traffic_run ts w1) as [ds w2]. simpl in *.
    repeat split; try assumption.
    change (offered_frames (t :: ts))
      with (offered_frames [t] ++ offered_frames ts) in *.
    count_frames.
Qed.

Lemma initialized_tidy (c : HandlerClass) (req : Request) (h : list Queue)
    (sp : list Task) (srv res : ObjRef) :
  let w1 := snd (initialize srv res (new_handler c req h [] sp)) in
  queue w1 = Some (length h) /\ tidy (length h) w1 /\ in_flight (length h) w1 = [].
Proof.
  intros w1.
  destruct (initialize_queue srv res (new_handler c req h [] sp)) as [Hr Hq].
  fold w1 in Hr, Hq. simpl in Hr, Hq.
  split; [exact Hr|]. split.
  - exists (Queue_new 100). simpl.
    repeat split; try assumption; try constructor. lia.
  - rewrite (in_flight_lookup _ w1 _ Hq). reflexivity.
Qed.

(** ** No frame is lost, none is made up *)

(** X1: on an initialised connection, whatever the interleaving of arriving
    frames, [recv], [recv_nowait] and loop turns, the frames given to
    [on_message] are exactly, as a multiset, those delivered to consumers
    together with those still in flight (queued, or held by a producer that
    waits): nothing is dropped, nothing is delivered twice. *)
Theorem frames_are_conserved
    (c : HandlerClass) (req : Request) (h : list Queue) (sp : list Task)
    (srv res : ObjRef) (ts : list traffic) :
  let w1 := snd (initialize srv res (new_handler c req h [] sp)) in
  let s := traffic_run ts w1 in
  Permutation (offered_frames ts) (fst s ++ in_flight (length h) (snd s)).
Proof.
  intros w1 s.
  destruct (initialized_tidy c req h sp srv res) as (Hr & Ht & Hempty).
  fold w1 in Hr, Ht, Hempty.
  destruct (traffic_run_keeps (length h) ts w1 Hr Ht) as (_ & _ & Hp).
  rewrite Hempty in Hp. exact Hp.
Qed.

(** X2: whatever the traffic, the connection's queue stays the bounded queue
    of [initialize] and never holds more than 100 frames: frames beyond the
    bound wait with their producers. *)
Theorem queue_never_exceeds_100
    (c : HandlerClass) (req : Request) (h : list Queue) (sp : list Task)
    (srv res : ObjRef) (ts : list traffic) :
  let w1 := snd (initialize srv res (new_handler c req h [] sp)) in
  let w2 := snd (traffic_run ts w1) in
  queue w2 = Some (length h) /\
  exists q : Queue,
    heap w2 !! length h = Some q /\
    maxsize q = 100%Z /\
    length (_queue q) <= 100.
Proof.
  intros w1 w2.
  destruct (initialized_tidy c req h sp srv res) as (Hr & Ht & _).
  fold w1 in Hr, Ht.
  destruct (traffic_run_keeps (length h) ts w1 Hr Ht)
    as (Hr2 & (q & Hq & Hmax & Hlen & _) & _).
  split; [exact Hr2|]. exists q. repeat split; assumption.
Qed.

(** ** Order of delivery *)

Lemma pending_lookup (r : nat) (w : World) (q : Queue) :
  heap w !! r = Some q ->
  pending r w = put_items (_putters q) ++ put_items (ready w).
Proof. intros Hq. unfold pending. rewrite Hq. reflexivity. Qed.

Lemma put_items_putters_nil (r : nat) (l : list coro) :
  Forall (fun c => coro_queue c = r /\ is_put c) l -> put_items l = [] -> l = [].
Proof.
  intros Hl. destruct Hl as [|c l [_ Hc] _]; [reflexivity|].
  destruct c; [discriminate|destruct Hc].
Qed.

Lemma short_rotate (a l : list msg) :
  length (a ++ l) <= 1 -> l ++ a = a ++ l.
Proof.
  destruct a as [|x a]; [rewrite app_nil_r; reflexivity|].
  destruct l as [|y l]; [rewrite app_nil_r; reflexivity|].
  rewrite length_app. simpl. lia.
Qed.

Lemma Queue_put_in_order (r : nat) (w : World) (m : msg) :
  tidy r w ->
  pending r w = [] ->
  in_flight r (snd (Queue_put r m w)) = in_flight r w ++ [m] /\
  length (pending r (snd (Queue_put r m w))) <= 1.
Proof.
  intros (q & Hq & Hmax & Hlen & Hput & Hget & Hrdy) Hpend.
  rewrite (pending_lookup r w q Hq) in Hpend.
  apply app_eq_nil in Hpend. destruct Hpend as [Hp Hr].
  pose proof (put_items_putters_nil r _ Hput Hp) as Hnone.
  rewrite (Queue_put_result w r q m Hq), (in_flight_lookup r w q Hq), Hp, Hr.
  destruct (Queue_full q); [|destruct (_getters q) as [|g gs] eqn:Hg]; simpl snd.
  - erewrite in_flight_lookup, pending_lookup by (heap_lookup Hq).
    simpl. rewrite Hnone, Hr. simpl. rewrite !app_nil_r. split; [reflexivity|lia].
  - erewrite in_flight_lookup, pending_lookup by (heap_lookup Hq).
    simpl. rewrite Hp, Hr. simpl. rewrite !app_nil_r. split; [reflexivity|lia].
  - inversion Hget as [|g' gs' [_ Hgg] _]; subst.
    destruct g; [destruct Hgg|].
    erewrite in_flight_lookup, pending_lookup by (heap_lookup Hq).
    simpl. rewrite Hp, put_items_app, Hr. simpl. rewrite !app_nil_r.
    split; [reflexivity|lia].
Qed.

Lemma Queue_get_nowait_in_order (r : nat) (w : World) :
  tidy r w ->
  length (pending r w) <= 1 ->
  in_flight r w
  = delivered_by_recv (fst (Queue_get_nowait r w))
    ++ in_flight r (snd (Queue_get_nowait r w)) /\
  length (pending r (snd (Queue_get_nowait r w))) <= 1.
Proof.
  intros (q & Hq & Hmax & Hlen & Hput & Hget & Hrdy) Hpend.
  rewrite (pending_lookup r w q Hq) in Hpend.
  destruct (_queue q) as [|m rest] eqn:Hitems.
  - rewrite (Queue_get_nowait_empty w r q Hq Hitems). simpl.
    rewrite (pending_lookup r w q Hq). split; [reflexivity|exact Hpend].
  - rewrite (Queue_get_nowait_head w r q m rest Hq Hitems),
      (in_flight_lookup r w q Hq), Hitems.
    destruct (_putters q) as [|p ps] eqn:Hp; simpl fst; simpl snd.
    + erewrite in_flight_lookup, pending_lookup by (heap_lookup Hq).
      simpl. rewrite Hp. split; [reflexivity|exact Hpend].
    + erewrite in_flight_lookup, pending_lookup by (heap_lookup Hq).
      simpl _queue. simpl _putters. simpl ready.
      change (p :: ps) with ([p] ++ ps) in Hpend |- *.
      rewrite !put_items_app in *.
      assert (Hrot : put_items ps ++ put_items (ready w) ++ put_items [p]
                     = (put_items [p] ++ put_items ps) ++ put_items (ready w)).
      { rewrite <- (app_assoc (put_items [p])), (app_assoc (put_items ps)).
        apply short_rotate. rewrite <- app_assoc in Hpend. exact Hpend. }
      rewrite Hrot. split; [reflexivity|exact Hpend].
Qed.

Lemma Queue_get_in_order (r : nat) (w : World) :
  tidy r w ->
  length (pending r w) <= 1 ->
  in_flight r w
  = delivered_by_recv (fst (Queue_get r w)) ++ in_flight r (snd (Queue_get r w)) /\
  length (pending r (snd (Queue_get r w))) <= 1.
Proof.
  intros Htidy Hpend.
  pose proof Htidy as (q & Hq & Hmax & Hlen & Hput & Hget & Hrdy).
  rewrite (Queue_get_result w r q Hq).
  destruct (_queue q) as [|m rest] eqn:Hitems.
  - simpl fst. simpl snd.
    rewrite (in_flight_lookup r w q Hq).
    rewrite (pending_lookup r w q Hq) in Hpend.
    erewrite in_flight_lookup, pending_lookup by (heap_lookup Hq).
    split; [reflexivity|exact Hpend].
  - apply Queue_get_nowait_in_order; assumption.
Qed.

Lemma run_once_in_order (r : nat) (w : World) :
  tidy r w ->
  length (pending r w) <= 1 ->
  in_flight r w
  = delivered_by_turn (fst (run_once w)) ++ in_flight r (snd (run_once w)) /\
  length (pending r (snd (run_once w))) <= 1.
Proof.
  intros Htidy Hpend.
  pose proof Htidy as (q & Hq & Hmax & Hlen & Hput & Hget & Hrdy).
  rewrite run_once_result.
  destruct (ready w) as [|c rest] eqn:Hready; [split; [reflexivity|exact Hpend]|].
  inversion Hrdy as [|c' rest' Hc Hrest]; subst c' rest'.
  set (w1 := set_ready (fun _ => rest) w).
  assert (Htidy1 : tidy r w1) by (exists q; repeat split; assumption).
  rewrite (pending_lookup r w q Hq), Hready in Hpend.
  rewrite (in_flight_lookup r w q Hq), Hready.
  destruct c as [r' m|r']; simpl in Hc; subst r'; unfold resume, mbind, M_bind, bind, ret.
  - simpl put_items in Hpend |- *.
    assert (Hp : put_items (_putters q) = [] /\ put_items rest = []).
    { rewrite length_app in Hpend. simpl in Hpend.
      destruct (put_items (_putters q)); [|simpl in Hpend; lia].
      destruct (put_items rest); [|simpl in Hpend; lia].
      split; reflexivity. }
    destruct Hp as [Hp Hr].
    assert (Hpend1 : pending r w1 = []).
    { rewrite (pending_lookup r w1 q Hq). simpl. rewrite Hp, Hr. reflexivity. }
    destruct (Queue_put_in_order r w1 m Htidy1 Hpend1) as [Hf Hl].
    rewrite (in_flight_lookup r w1 q Hq) in Hf. simpl ready in Hf.
    rewrite Hp, Hr in Hf |- *. simpl in Hf |- *. rewrite app_nil_r in Hf.
    destruct (Queue_put r m w1) as [[[]|e|c'] w']; simpl in *;
      (split; [symmetry; exact Hf|exact Hl]).
  - simpl put_items in Hpend |- *.
    assert (Hpend1 : length (pending r w1) <= 1)
      by (rewrite (pending_lookup r w1 q Hq); exact Hpend).
    destruct (Queue_get_in_order r w1 Htidy1 Hpend1) as [Hf Hl].
    rewrite (in_flight_lookup r w1 q Hq) in Hf. simpl ready in Hf.
    destruct (Queue_get r w1) as [[item|e|c'] w']; simpl in *;
      (split; [exact Hf|exact Hl]).
Qed.

Lemma offered_frames_cons (t : traffic) (ts : list traffic) :
  offered_frames (t :: ts) = offered_frames [t] ++ offered_frames ts.
Proof. unfold offered_frames. simpl. rewrite app_nil_r. reflexivity. Qed.

Lemma traffic_run_cons (t : traffic) (ts : list traffic) (w : World) :
  traffic_run (t :: ts) w
  = (fst (traffic_step w t) ++ fst (traffic_run ts (snd (traffic_step w t))),
     snd (traffic_run ts (snd (traffic_step w t)))).
Proof.
  simpl traffic_run. destruct (traffic_step w t) as [d w1]. simpl fst. simpl snd.
  destruct (traffic_run ts w1) as [ds w2]. reflexivity.
Qed.

Lemma traffic_step_in_order (r : nat) (w : World) (t : traffic) :
  queue w = Some r ->
  tidy r w ->
  length (pending r w) <= 1 ->
  match t, pending r w with
  | Frame _, _ :: _ => false
  | _, _ => true
  end = true ->
  in_flight r w ++ offered_frames [t]
  = fst (traffic_step w t) ++ in_flight r (snd (traffic_step w t)) /\
  length (pending r (snd (traffic_step w t))) <= 1.
Proof.
  intros Hr Htidy Hpend Hdisc. destruct t as [m| | |]; simpl.
  - destruct (pending r w) eqn:Hnone; [|discriminate].
    rewrite (on_message_is_put w r m Hr).
    destruct (Queue_put_in_order r w m Htidy Hnone) as [Hf Hl].
    split; [symmetry; exact Hf|exact Hl].
  - rewrite (recv_is_get w r Hr), app_nil_r.
    apply Queue_get_in_order; assumption.
  - rewrite (recv_nowait_is_get_nowait w r Hr), app_nil_r.
    apply Queue_get_nowait_in_order; assumption.
  - rewrite app_nil_r. apply run_once_in_order; assumption.
Qed.

Lemma traffic_run_in_order (r : nat) (ts : list traffic) :
  forall w : World,
    queue w = Some r ->
    tidy r w ->
    length (pending r w) <= 1 ->
    disciplined r ts w = true ->
    in_flight r w ++ offered_frames ts
    = fst (traffic_run ts w) ++ in_flight r (snd (traffic_run ts w)).
Proof.
  induction ts as [|t ts IH]; intros w Hr Htidy Hpend Hdisc.
  - simpl. rewrite app_nil_r. reflexivity.
  - simpl in Hdisc. apply andb_prop in Hdisc. destruct Hdisc as [Hnow Hlater].
    destruct (traffic_step_keeps r w t Hr Htidy) as (Hr1 & Ht1 & _).
    destruct (traffic_step_in_order r w t Hr Htidy Hpend Hnow) as [Hf1 Hl1].
    specialize (IH _ Hr1 Ht1 Hl1 Hlater).
    rewrite traffic_run_cons, offered_frames_cons. simpl fst. simpl snd.
    rewrite app_assoc, Hf1, <- app_assoc, IH, app_assoc. reflexivity.
Qed.

(** X3: when the transport keeps its discipline (no frame is handed to
    [on_message] while a producer still waits), delivery is first in, first
    out under any interleaving of [recv], [recv_nowait] and loop turns, full
    queue included: the frames given to [on_message] are, in order, those
    delivered to consumers followed by those still in flight. *)
Theorem frames_delivered_in_order
    (c : HandlerClass) (req : Request) (h : list Queue) (sp : list Task)
    (srv res : ObjRef) (ts : list traffic) :
  let w1 := snd (initialize srv res (new_handler c req h [] sp)) in
  let s := traffic_run ts w1 in
  disciplined (length h) ts w1 = true ->
  offered_frames ts = fst s ++ in_flight (length h) (snd s).
Proof.
  intros w1 s Hdisc.
  destruct (initialized_tidy c req h sp srv res) as (Hr & Ht & Hempty).
  fold w1 in Hr, Ht, Hempty.
  assert (Hpend : length (pending (length h) w1) <= 1).
  { destruct Ht as (q & Hq & _). rewrite (pending_lookup _ w1 q Hq).
    unfold in_flight in Hempty. rewrite Hq in Hempty.
    apply app_eq_nil in Hempty. destruct Hempty as [_ Hnil].
    rewrite Hnil. simpl. lia. }
  pose proof (traffic_run_in_order (length h) ts w1 Hr Ht Hpend Hdisc) as Hrun.
  rewrite Hempty in Hrun. exact Hrun.
Qed.

(** X3 on the sample traffic: 101 frames, the last of them waiting with its
    producer, then two frames consumed. *)
Lemma frames_delivered_in_order_sample :
  let s := traffic_run sample_traffic (sample_initialized [GRAPHQL_WS]) in
  disciplined 0 sample_traffic (sample_initialized [GRAPHQL_WS]) = true /\
  fst s = [frame 0; frame 1] /\
  offered_frames sample_traffic = fst s ++ in_flight 0 (snd s).
Proof.
  intros s.
  assert (Hdisc : disciplined 0 sample_traffic (sample_initialized [GRAPHQL_WS])
                  = true) by (vm_compute; reflexivity).
  split; [exact Hdisc|]. split; [vm_compute; reflexivity|].
  exact (frames_delivered_in_order SubscriptionHandler
           (sample_request [GRAPHQL_WS]) [] [] sample_server sample_resolvers
           sample_traffic Hdisc).
Defined.

(** ** A consumer that waits *)

(** X4: on a connection with nothing queued, [recv] suspends the consumer
    and parks it among the queue's getters; the next frame given to
    [on_message] is queued without suspension and wakes that consumer, and
    on the loop's next turn the consumer gets exactly this frame, leaving
    the queue empty. *)
Theorem recv_on_empty_waits_for_next_frame
    (c : HandlerClass) (req : Request) (h : list Queue) (sp : list Task)
    (srv res : ObjRef) (m : msg) :
  let r := length h in
  let w1 := snd (initialize srv res (new_handler c req h [] sp)) in
  let s2 := recv w1 in
  let s3 := on_message m (snd s2) in
  let s4 := run_once (snd s3) in
  fst s2 = Suspended (GetCoro r) /\
  (_getters <$> heap (snd s2) !! r) = Some [GetCoro r] /\
  fst s3 = Returned tt /\
  (_queue <$> heap (snd s3) !! r) = Some [m] /\
  ready (snd s3) = [GetCoro r] /\
  fst s4 = Returned (Some (GetDone m)) /\
  (_queue <$> heap (snd s4) !! r) = Some [] /\
  ready (snd s4) = [].
Proof.
  intros r w1 s2 s3 s4.
  destruct (initialize_queue srv res (new_handler c req h [] sp)) as [Hr Hq].
  fold w1 in Hr, Hq. simpl in Hr, Hq. fold r in Hr, Hq.
  assert (H2 : s2 = (Suspended (GetCoro r),
            set_heap (fun l => <[r := with_getters [GetCoro r] (Queue_new 100)]> l) w1)).
  { subst s2. rewrite (recv_is_get w1 r Hr), (Queue_get_result w1 r _ Hq).
    reflexivity. }
  set (q2 := with_getters [GetCoro r] (Queue_new 100)) in *.
  assert (Hq2 : heap (snd s2) !! r = Some q2)
    by (rewrite H2; apply (lookup_store w1 r _ _ Hq)).
  assert (Hr2 : queue (snd s2) = Some r) by (rewrite H2; exact Hr).
  assert (H3 : s3 = (Returned tt,
            set_ready (fun l => l ++ [GetCoro r])
              (set_heap (fun l => <[r := with_getters [] (with_queue [m] q2)]> l)
                 (snd s2)))).
  { subst s3. rewrite (on_message_is_put _ r m Hr2), (Queue_put_result _ r q2 m Hq2).
    reflexivity. }
  set (q3 := with_getters [] (with_queue [m] q2)) in *.
  assert (Hq3 : heap (snd s3) !! r = Some q3)
    by (rewrite H3; apply (heap_after_update _ r q2 q3 _ Hq2)).
  assert (Hready3 : ready (snd s3) = [GetCoro r])
    by (rewrite H3, H2; reflexivity).
  set (w3' := set_ready (fun _ => []) (snd s3)).
  assert (Hq3' : heap w3' !! r = Some q3) by exact Hq3.
  assert (H4 : s4 = (Returned (Some (GetDone m)),
            set_heap (fun l => <[r := with_queue [] q3]> l) w3')).
  { subst s4. rewrite run_once_result, Hready3.
    unfold resume, mbind, M_bind, bind, ret. fold w3'.
    rewrite (Queue_get_result w3' r q3 Hq3'). simpl _queue.
    rewrite (Queue_get_nowait_head w3' r q3 m [] Hq3' eq_refl). reflexivity. }
  assert (Hq4 : heap (snd s4) !! r = Some (with_queue [] q3))
    by (rewrite H4; apply (lookup_store w3' r _ _ Hq3')).
  repeat split.
  - rewrite H2. reflexivity.
  - rewrite Hq2. reflexivity.
  - rewrite H3. reflexivity.
  - rewrite Hq3. reflexivity.
  - exact Hready3.
  - rewrite H4. reflexivity.
  - rewrite Hq4. reflexivity.
  - rewrite H4. reflexivity.
Qed.

(** ** More on the user profile *)

Section ProfileDetails.
Variable ME : string.
Variable hostname : string.
Variable base_get_current_user : Request -> pyval.

Lemma UserProfileHandler_get_result (w : World) :
  let resolved := base_get_current_user (request w) in
  let entry :=
    {| levelname := DEBUG; msg_user := resolved; msg_class := cls w |} in
  let user := match _current_user w with Some u => u | None => resolved end in
  let info :=
    match resolved with
    | PDict d => d
    | _ => token_user_info ME hostname
    end in
  let w' := snd (UserProfileHandler_get ME hostname base_get_current_user w) in
  written w'
  = written w ++ (if truthy user then [PDict (<["owner" := PStr ME]> info)] else []) /\
  log w'
  = log w ++ match _current_user w with None => [entry] | Some _ => [] end
          ++ (if truthy user then [entry] else []) /\
  _status_code w' = if truthy user then _status_code w else 302%Z.
Proof.
  intros resolved entry user info w'. subst resolved entry user info w'.
  unfold UserProfileHandler_get, web_authenticated, current_user,
    get_current_user, authorise, write, modify, gets, ret, raise,
    mbind, M_bind, bind.
  destruct (_current_user w) as [u|] eqn:Hc; simpl.
  - destruct (truthy u); simpl; rewrite ?app_nil_r; repeat split; reflexivity.
  - destruct (truthy (base_get_current_user (request w))); simpl;
      rewrite ?app_nil_r, <- ?app_assoc; repeat split; reflexivity.
Qed.

(** X5: under token authentication (the resolved user is not a dict), the
    profile written for an authenticated request has exactly four entries:
    kind ['user'], the host name as server, and the process's user [ME] both
    as owner and as name, whoever the authenticated user is. *)
Theorem token_profile_names_the_process_user (w : World) :
  let resolved := base_get_current_user (request w) in
  let user := match _current_user w with Some u => u | None => resolved end in
  let w' := snd (UserProfileHandler_get ME hostname base_get_current_user w) in
  truthy user = true ->
  match resolved with PDict _ => False | _ => True end ->
  exists info : gmap string pyval,
    written w' = written w ++ [PDict info] /\
    info !! "kind" = Some (PStr "user") /\
    info !! "name" = Some (PStr ME) /\
    info !! "server" = Some (PStr hostname) /\
    info !! "owner" = Some (PStr ME) /\
    forall key : string,
      ~ In key ["kind"; "name"; "server"; "owner"]%string -> info !! key = None.
Proof.
  intros resolved user w' Htruthy Hnotdict.
  destruct (UserProfileHandler_get_result w) as (Hw & _ & _).
  fold resolved user w' in Hw. rewrite Htruthy in Hw.
  exists (<["owner" := PStr ME]> (token_user_info ME hostname)).
  split; [destruct resolved; try exact Hw; destruct Hnotdict|].
  unfold token_user_info.
  repeat split; try (vm_compute; reflexivity); try (simplify_map_eq; reflexivity).
  intros key Hkey. simpl in Hkey.
  rewrite !lookup_insert_ne by (intros Heq; apply Hkey; rewrite <- Heq; tauto).
  apply lookup_empty.
Qed.

(** X6: behind a hub (the resolved user is a dict), the profile written for
    an authenticated request is the hub's user model with only ['owner']
    changed: every other entry goes out as the hub gave it. *)
Theorem hub_profile_keeps_other_entries (w : World) (d : gmap string pyval) :
  let user :=
    match _current_user w with Some u => u | None => PDict d end in
  let w' := snd (UserProfileHandler_get ME hostname base_get_current_user w) in
  base_get_current_user (request w) = PDict d ->
  truthy user = true ->
  exists info : gmap string pyval,
    written w' = written w ++ [PDict info] /\
    info !! "owner" = Some (PStr ME) /\
    forall key : string, key <> "owner"%string -> info !! key = d !! key.
Proof.
  intros user w' Hdict Htruthy.
  destruct (UserProfileHandler_get_result w) as (Hw & _ & _).
  fold w' in Hw. rewrite Hdict in Hw. fold user in Hw. rewrite Htruthy in Hw.
  exists (<["owner" := PStr ME]> d).
  split; [exact Hw|]. split; [apply lookup_insert_eq|].
  intros key Hkey. apply lookup_insert_ne. congruence.
Qed.

(** X7: a profile request on a new handler asks for authorisation twice when
    the user is authenticated (once through the decorator, once through the
    direct call of [get_current_user]) and once when not; a request that is
    not authenticated writes nothing and is redirected. *)
Theorem profile_request_authorises_twice (w : World) :
  let resolved := base_get_current_user (request w) in
  let entry :=
    {| levelname := DEBUG; msg_user := resolved; msg_class := cls w |} in
  let w' := snd (UserProfileHandler_get ME hostname base_get_current_user w) in
  _current_user w = None ->
  if truthy resolved then
    log w' = log w ++ [entry; entry] /\
    length (written w') = S (length (written w)) /\
    _status_code w' = _status_code w
  else
    log w' = log w ++ [entry] /\
    written w' = written w /\
    _status_code w' = 302%Z.
Proof.
  intros resolved entry w' Hfresh.
  destruct (UserProfileHandler_get_result w) as (Hw & Hl & Hs).
  fold resolved entry w' in Hw, Hl, Hs. rewrite Hfresh in Hw, Hl, Hs.
  destruct (truthy resolved).
  - repeat split; try assumption. rewrite Hw, length_app. simpl. lia.
  - rewrite app_nil_r in Hw, Hl. repeat split; assumption.
Qed.
End ProfileDetails.

(** ** Authorisation happens once per connection *)

Create HintDb auth.

Lemma auth_ret {A} (a : A) : keeps_auth (ret a).
Proof. intros w u Hu. split; [reflexivity|exact Hu]. Qed.

Lemma auth_raise {A} (e : exn) : keeps_auth (@raise A e).
Proof. intros w u Hu. split; [reflexivity|exact Hu]. Qed.

Lemma auth_suspend {A} (c : coro) : keeps_auth (@suspend A c).
Proof. intros w u Hu. split; [reflexivity|exact Hu]. Qed.

Lemma auth_gets {A} (f : World -> A) : keeps_auth (gets f).
Proof. intros w u Hu. split; [reflexivity|exact Hu]. Qed.

Lemma auth_getattr {A} (name : string) (f : World -> option A) :
  keeps_auth (getattr name f).
Proof.
  intros w u Hu. unfold getattr. destruct (f w); split; reflexivity || exact Hu.
Qed.

Lemma auth_deref (r : nat) : keeps_auth (deref r).
Proof.
  intros w u Hu. unfold deref.
  destruct (heap w !! r); split; reflexivity || exact Hu.
Qed.

Lemma auth_store (r : nat) (q : Queue) : keeps_auth (store r q).
Proof. intros w u Hu. split; [reflexivity|exact Hu]. Qed.

Lemma auth_call_soon (c : coro) : keeps_auth (call_soon c).
Proof. intros w u Hu. split; [reflexivity|exact Hu]. Qed.

Lemma auth_set_ready (f : list coro -> list coro) :
  keeps_auth (modify (set_ready f)).
Proof. intros w u Hu. split; [reflexivity|exact Hu]. Qed.

Lemma auth_set_selected_subprotocol (p : option string) :
  keeps_auth (modify (set_selected_subprotocol p)).
Proof. intros w u Hu. split; [reflexivity|exact Hu]. Qed.

Lemma auth_spawn_callback (t : Task) : keeps_auth (spawn_callback t).
Proof. intros w u Hu. split; [reflexivity|exact Hu]. Qed.

Lemma auth_bind {A B} (m : M A) (k : A -> M B) :
  keeps_auth m -> (forall a, keeps_auth (k a)) -> keeps_auth (m ≫= k).
Proof.
  intros Hm Hk w u Hu. unfold mbind, M_bind, bind.
  destruct (Hm w u Hu) as [Hl Hc].
  destruct (m w) as [[a|e|c] w1]; simpl in *; try (split; assumption).
  destruct (Hk a w1 u Hc) as [Hl1 Hc1]. split; congruence.
Qed.

#[local] Hint Resolve auth_ret auth_raise auth_suspend auth_gets auth_getattr
  auth_deref auth_store auth_call_soon auth_set_ready
  auth_set_selected_subprotocol auth_spawn_callback : auth.

Ltac auth_step :=
  match goal with
  | |- keeps_auth (_ ≫= _) => apply auth_bind; [|intros]
  | |- keeps_auth (match ?x with _ => _ end) => destruct x
  | |- keeps_auth _ => solve [auto with auth]
  end.

Lemma auth_on_message (m : msg) : keeps_auth (on_message m).
Proof.
  unfold on_message, Queue_put, Queue_put_nowait, wakeup_next_getter.
  repeat auth_step.
Qed.

Lemma auth_Queue_get_nowait (r : nat) : keeps_auth (Queue_get_nowait r).
Proof. unfold Queue_get_nowait, wakeup_next_putter. repeat auth_step. Qed.

Lemma auth_recv_nowait : keeps_auth recv_nowait.
Proof. unfold recv_nowait. repeat auth_step. apply auth_Queue_get_nowait. Qed.

Lemma auth_Queue_get (r : nat) : keeps_auth (Queue_get r).
Proof. unfold Queue_get. repeat auth_step. apply auth_Queue_get_nowait. Qed.

Lemma auth_recv : keeps_auth recv.
Proof. unfold recv. repeat auth_step. apply auth_Queue_get. Qed.

Lemma auth_run_once : keeps_auth run_once.
Proof.
  unfold run_once, resume, Queue_put, Queue_put_nowait, wakeup_next_getter.
  repeat auth_step. apply auth_Queue_get.
Qed.

Lemma auth_set_status (status : Z) : keeps_auth (modify (set_status status)).
Proof. intros w u Hu. split; [reflexivity|exact Hu]. Qed.

Lemma auth_swallow (method : M unit) :
  keeps_auth method -> keeps_auth (swallow method).
Proof.
  intros Hm w u Hu. unfold swallow. specialize (Hm w u Hu).
  destruct (method w) as [[[]|e|c] w']; exact Hm.
Qed.

#[local] Hint Resolve auth_set_status : auth.

Section AuthoriseOnce.
Variable base_get_current_user : Request -> pyval.
Variable assertions_enabled : bool.
Variable transport_refusal : Request -> option Z.

Lemma auth_current_user : keeps_auth (current_user base_get_current_user).
Proof.
  intros w u Hu. unfold current_user, gets, ret, mbind, M_bind, bind.
  rewrite Hu. split; [reflexivity|exact Hu].
Qed.

Lemma auth_websockets_authenticated {A} (method : M A) :
  keeps_auth method ->
  keeps_auth (websockets_authenticated base_get_current_user method).
Proof.
  intros Hm. unfold websockets_authenticated.
  apply auth_bind; [apply auth_current_user|].
  intros u. destruct (truthy u); auto with auth.
Qed.

Lemma auth_open : keeps_auth (open base_get_current_user).
Proof.
  unfold open, context. apply auth_websockets_authenticated.
  repeat auth_step.
Qed.

Lemma auth_get : keeps_auth (get base_get_current_user assertions_enabled transport_refusal).
Proof.
  unfold get, WebSocketHandler_get, select_subprotocol.
  apply auth_websockets_authenticated.
  repeat auth_step. apply auth_swallow. apply auth_open.
Qed.

Lemma auth_run (events : list event) :
  forall (w : World) (u : pyval),
    _current_user w = Some u ->
    log (run base_get_current_user assertions_enabled transport_refusal events w) = log w.
Proof.
  induction events as [|e events IH]; intros w u Hu; [reflexivity|].
  simpl.
  assert (Hstep : log (step base_get_current_user assertions_enabled transport_refusal w e) = log w /\
                  _current_user (step base_get_current_user assertions_enabled transport_refusal w e)
                  = Some u).
  { destruct e; simpl.
    - split; [reflexivity|exact Hu].
    - apply auth_get; exact Hu.
    - apply auth_open; exact Hu.
    - apply auth_on_message; exact Hu.
    - apply auth_recv; exact Hu.
    - apply auth_recv_nowait; exact Hu.
    - apply auth_run_once; exact Hu. }
  destruct Hstep as [Hl Hc]. rewrite (IH _ u Hc). exact Hl.
Qed.

(** X8: a connection is authorised exactly once.  Although [get] and [open]
    are both wrapped in the authentication decorator, the handshake leaves a
    single authorisation record, for the resolved principal, and nothing
    that happens to the connection afterwards (another [get] or [open],
    frames, [recv], [recv_nowait], loop turns) authorises again. *)
Theorem connection_is_authorised_once
    (c : HandlerClass) (req : Request) (h : list Queue)
    (rd : list coro) (sp : list Task) (srv res : ObjRef) (events : list event) :
  let entry :=
    {| levelname := DEBUG; msg_user := base_get_current_user req;
       msg_class := c |} in
  let w1 :=
    snd (connect base_get_current_user assertions_enabled transport_refusal srv res
           (new_handler c req h rd sp)) in
  log w1 = [entry] /\
  log (run base_get_current_user assertions_enabled transport_refusal events w1) = [entry].
Proof.
  intros entry w1.
  destruct (connect_outcome base_get_current_user assertions_enabled
              transport_refusal c req h rd sp srv res)
    as (_ & _ & Hlog & Hcached & _).
  fold w1 entry in Hlog, Hcached. split; [exact Hlog|].
  rewrite (auth_run events w1 _ Hcached). exact Hlog.
Qed.
End AuthoriseOnce.

#[local] Set Warnings "-clear-no-such-hyp".

(** ** The attributes of the GraphQL handler *)

Section GraphQLAttributes.
Variable instantiate_middleware : pyobj -> list ObjRef.
Variable get_default_backend : pyobj.
Variable inherited_descriptor : string -> bool.
Variable inherited_hasattr : gmap string pyobj -> string -> bool.
Variable inherited_setattr :
  gmap string pyobj -> string -> pyobj -> exn + gmap string pyobj.

Lemma hasattr_plain (self : gmap string pyobj) (k : string) :
  k ∉ readonly_properties ->
  inherited_descriptor k = false ->
  hasattr inherited_descriptor inherited_hasattr self k
  = bool_decide (is_Some (self !! k)).
Proof.
  intros Hro Hinh. unfold readonly_properties in Hro.
  repeat (apply not_elem_of_cons in Hro; destruct Hro as [? Hro]).
  unfold hasattr, visible.
  rewrite bool_decide_eq_false_2 by (set_unfold; naive_solver).
  rewrite bool_decide_eq_false_2 by assumption.
  rewrite Hinh. reflexivity.
Qed.

Lemma setattr_plain (self : gmap string pyobj) (k : string) (v : pyobj) :
  k ∉ readonly_properties ->
  inherited_descriptor k = false ->
  setattr inherited_descriptor inherited_setattr self k v
  = inr (<[k := v]> self).
Proof.
  intros Hro Hinh. unfold setattr.
  rewrite bool_decide_eq_false_2 by exact Hro. rewrite Hinh. reflexivity.
Qed.

Lemma set_extra_attributes_plain (kwargs : list (string * pyobj)) :
  forall self : gmap string pyobj,
    (forall k : string,
        k ∈ kwargs.*1 -> (k ∉ readonly_properties) /\ inherited_descriptor k = false) ->
    exists self' : gmap string pyobj,
      set_extra_attributes inherited_descriptor inherited_hasattr
        inherited_setattr kwargs self = inr self' /\
      (forall k : string, k ∉ kwargs.*1 -> self' !! k = self !! k) /\
      (NoDup kwargs.*1 ->
       forall (k : string) (v : pyobj),
         (k, v) ∈ kwargs ->
         self' !! k = if bool_decide (is_Some (self !! k)) then Some v else None).
Proof.
  induction kwargs as [|[k0 v0] kwargs IH]; intros self Hplain.
  - exists self. split; [reflexivity|]. split; [reflexivity|].
    intros _ k v Hin. inversion Hin.
  - destruct (Hplain k0 ltac:(simpl; apply list_elem_of_here)) as [Hro Hinh].
    assert (Hrest : forall k, k ∈ kwargs.*1 ->
              (k ∉ readonly_properties) /\ inherited_descriptor k = false).
    { intros k Hk. apply Hplain. simpl. apply list_elem_of_further. exact Hk. }
    simpl set_extra_attributes.
    rewrite (hasattr_plain self k0 Hro Hinh), (setattr_plain self k0 v0 Hro Hinh).
    set (self1 := if bool_decide (is_Some (self !! k0))
                  then <[k0 := v0]> self else self).
    assert (Hother : forall k, k <> k0 -> self1 !! k = self !! k).
    { intros k Hne. subst self1. case_bool_decide; [|reflexivity].
      apply lookup_insert_ne. congruence. }
    destruct (IH self1 Hrest) as (self' & Hrun & Hframe & Hgiven).
    exists self'. split; [subst self1; case_bool_decide; exact Hrun|].
    split.
    + intros k Hk. simpl in Hk. apply not_elem_of_cons in Hk.
      destruct Hk as [Hne Hk]. rewrite (Hframe k Hk). apply Hother. exact Hne.
    + intros Hnodup k v Hin. simpl in Hnodup.
      apply NoDup_cons in Hnodup. destruct Hnodup as [Hfresh Hnodup].
      apply elem_of_cons in Hin. destruct Hin as [Heq|Hin].
      * inversion Heq; subst k0 v0. rewrite (Hframe k Hfresh).
        subst self1. case_bool_decide as Hhas; [apply lookup_insert_eq|].
        destruct (self !! k) eqn:Hk; [|reflexivity].
        exfalso. apply Hhas. eexists. reflexivity.
      * assert (Hne : k <> k0).
        { intros ->. apply Hfresh. apply list_elem_of_fmap.
          exists (k0, v). split; [reflexivity|exact Hin]. }
        rewrite (Hgiven Hnodup k v Hin), (Hother k Hne). reflexivity.
Qed.


Lemma initialize_assignments
    (schema executor middleware root_value graphiql pretty batch backend : pyobj)
    (kwargs : list (string * pyobj)) (self : gmap string pyobj) :
  (forall k : string, k ∈ initialize_parameters -> inherited_descriptor k = false) ->
  UIServerGraphQLHandler_initialize instantiate_middleware get_default_backend
    inherited_descriptor inherited_hasattr inherited_setattr
    schema executor middleware root_value graphiql pretty batch backend
    kwargs self
  = set_extra_attributes inherited_descriptor inherited_hasattr
      inherited_setattr kwargs
      (<["backend" := if obj_truthy backend then backend else get_default_backend]>
         (<["batch" := batch]>
            (<["graphiql" := graphiql]>
               (<["pretty" := pretty]>
                  (<["root_value" := root_value]>
                     (<["executor" := executor]>
                        match middleware with
                        | ONone => <["schema" := schema]> self
                        | _ =>
                            <["middleware" :=
                                OList (instantiate_middleware middleware)]>
                              (<["schema" := schema]> self)
                        end)))))).
Proof.
  intros Hparams.
  assert (Hset : forall (s : gmap string pyobj) (k : string) (v : pyobj),
            k ∈ initialize_parameters ->
            setattr inherited_descriptor inherited_setattr s k v
            = inr (<[k := v]> s)).
  { intros s k v Hk. apply setattr_plain; [|apply Hparams; exact Hk].
    unfold initialize_parameters, readonly_properties in *.
    set_unfold. naive_solver. }
  unfold UIServerGraphQLHandler_initialize.
  rewrite Hset by (unfold initialize_parameters; set_solver).
  cbn [and_then].
  destruct middleware;
    repeat (cbn [and_then];
            try rewrite Hset by (unfold initialize_parameters; set_solver));
    reflexivity.
Qed.

(** X9: when no keyword names a property, [initialize] of the GraphQL
    handler completes, and of its extra keyword arguments, one that names
    an attribute the handler already has is stored under that name, and any
    other one is dropped without creating an attribute. *)
Theorem extra_kwargs_set_existing_attributes_only
    (schema executor middleware root_value graphiql pretty batch backend : pyobj)
    (kwargs : list (string * pyobj)) (self : gmap string pyobj)
    (key : string) (value : pyobj) :
  NoDup kwargs.*1 ->
  (forall k : string, k ∈ kwargs.*1 -> k ∉ initialize_parameters) ->
  (forall k : string, k ∈ initialize_parameters -> inherited_descriptor k = false) ->
  (forall k : string,
      k ∈ kwargs.*1 -> (k ∉ readonly_properties) /\ inherited_descriptor k = false) ->
  (key, value) ∈ kwargs ->
  exists self' : gmap string pyobj,
    UIServerGraphQLHandler_initialize instantiate_middleware get_default_backend
      inherited_descriptor inherited_hasattr inherited_setattr
      schema executor middleware root_value graphiql pretty batch backend
      kwargs self = inr self' /\
    self' !! key = if bool_decide (is_Some (self !! key)) then Some value else None.
Proof.
  intros Hnodup Hpython Hparams Hplain Hin.
  assert (Hkey : key ∉ initialize_parameters).
  { apply Hpython. apply list_elem_of_fmap. exists (key, value).
    split; [reflexivity|exact Hin]. }
  rewrite (initialize_assignments _ _ _ _ _ _ _ _ _ _ Hparams).
  match goal with
  | |- context [set_extra_attributes _ _ _ kwargs ?pre] =>
      destruct (set_extra_attributes_plain kwargs pre Hplain)
        as (self' & Hrun & _ & Hgiven);
      assert (Hpre : pre !! key = self !! key)
  end.
  { unfold initialize_parameters in Hkey.
    repeat (apply not_elem_of_cons in Hkey; destruct Hkey as [? Hkey]).
    destruct middleware; rewrite !lookup_insert_ne by congruence; reflexivity. }
  exists self'. split; [exact Hrun|].
  rewrite (Hgiven Hnodup key value Hin), Hpre. reflexivity.
Qed.

(** X10: when no keyword names a property, [initialize] completes and the
    handler then holds what it was given under [schema], [executor],
    [root_value], [pretty], [graphiql] and [batch]; [backend] is the given
    backend when it is truthy and the default backend otherwise;
    [middleware] is replaced by the instantiated middleware only when one is
    given; and every attribute that is neither one of these nor named by an
    extra keyword argument is left as it was. *)
Theorem initialize_sets_standard_attributes
    (schema executor middleware root_value graphiql pretty batch backend : pyobj)
    (kwargs : list (string * pyobj)) (self : gmap string pyobj) :
  (forall k : string, k ∈ kwargs.*1 -> k ∉ initialize_parameters) ->
  (forall k : string, k ∈ initialize_parameters -> inherited_descriptor k = false) ->
  (forall k : string,
      k ∈ kwargs.*1 -> (k ∉ readonly_properties) /\ inherited_descriptor k = false) ->
  exists self' : gmap string pyobj,
    UIServerGraphQLHandler_initialize instantiate_middleware get_default_backend
      inherited_descriptor inherited_hasattr inherited_setattr
      schema executor middleware root_value graphiql pretty batch backend
      kwargs self = inr self' /\
    self' !! "schema" = Some schema /\
    self' !! "executor" = Some executor /\
    self' !! "root_value" = Some root_value /\
    self' !! "pretty" = Some pretty /\
    self' !! "graphiql" = Some graphiql /\
    self' !! "batch" = Some batch /\
    self' !! "backend"
    = Some (if obj_truthy backend then backend else get_default_backend) /\
    self' !! "middleware"
    = match middleware with
      | ONone => self !! "middleware"
      | _ => Some (OList (instantiate_middleware middleware))
      end /\
    forall k : string,
      k ∉ initialize_parameters -> k ∉ kwargs.*1 -> self' !! k = self !! k.
Proof.
  intros Hpython Hparams Hplain.
  assert (Hparam : forall k, k ∈ initialize_parameters -> k ∉ kwargs.*1).
  { intros k Hk Hin. exact (Hpython k Hin Hk). }
  rewrite (initialize_assignments _ _ _ _ _ _ _ _ _ _ Hparams).
  match goal with
  | |- context [set_extra_attributes _ _ _ kwargs ?pre] =>
      destruct (set_extra_attributes_plain kwargs pre Hplain)
        as (self' & Hrun & Hframe & _)
  end.
  exists self'. split; [exact Hrun|].
  repeat split.
  1-8: rewrite Hframe
         by (apply Hparam; unfold initialize_parameters; set_solver);
       destruct middleware; simplify_map_eq; reflexivity.
  intros k Hk Hkw. rewrite (Hframe k Hkw).
  unfold initialize_parameters in Hk.
  repeat (apply not_elem_of_cons in Hk; destruct Hk as [? Hk]).
  destruct middleware; rewrite !lookup_insert_ne by congruence; reflexivity.
Qed.

End GraphQLAttributes.

(** ** Connections do not touch each other's queues *)

Lemma Queue_put_others (r : nat) (w : World) (m : msg) (i : nat) :
  tidy r w -> i <> r -> heap (snd (Queue_put r m w)) !! i = heap w !! i.
Proof.
  intros (q & Hq & _) Hi. rewrite (Queue_put_result w r q m Hq).
  destruct (Queue_full q); [|destruct (_getters q)]; simpl;
    apply list_lookup_insert_ne; congruence.
Qed.

Lemma Queue_get_nowait_others (r : nat) (w : World) (i : nat) :
  tidy r w -> i <> r -> heap (snd (Queue_get_nowait r w)) !! i = heap w !! i.
Proof.
  intros (q & Hq & _) Hi.
  destruct (_queue q) as [|m rest] eqn:Hitems.
  - rewrite (Queue_get_nowait_empty w r q Hq Hitems). reflexivity.
  - rewrite (Queue_get_nowait_head w r q m rest Hq Hitems).
    destruct (_putters q); simpl; apply list_lookup_insert_ne; congruence.
Qed.

Lemma Queue_get_others (r : nat) (w : World) (i : nat) :
  tidy r w -> i <> r -> heap (snd (Queue_get r w)) !! i = heap w !! i.
Proof.
  intros Htidy Hi. pose proof Htidy as (q & Hq & _).
  rewrite (Queue_get_result w r q Hq).
  destruct (_queue q) eqn:Hitems.
  - simpl. apply list_lookup_insert_ne. congruence.
  - apply Queue_get_nowait_others; assumption.
Qed.

Lemma run_once_others (r : nat) (w : World) (i : nat) :
  tidy r w -> i <> r -> heap (snd (run_once w)) !! i = heap w !! i.
Proof.
  intros Htidy Hi.
  pose proof Htidy as (q & Hq & Hmax & Hlen & Hput & Hget & Hrdy).
  rewrite run_once_result.
  destruct (ready w) as [|c rest] eqn:Hready; [reflexivity|].
  inversion Hrdy as [|c' rest' Hc Hrest]; subst c' rest'.
  set (w1 := set_ready (fun _ => rest) w).
  assert (Htidy1 : tidy r w1) by (exists q; repeat split; assumption).
  destruct c as [r' m|r']; simpl in Hc; subst r';
    unfold resume, mbind, M_bind, bind, ret.
  - pose proof (Queue_put_others r w1 m i Htidy1 Hi) as Hput1.
    destruct (Queue_put r m w1) as [[[]|e|c'] w']; exact Hput1.
  - pose proof (Queue_get_others r w1 i Htidy1 Hi) as Hget1.
    destruct (Queue_get r w1) as [[item|e|c'] w']; exact Hget1.
Qed.

Lemma traffic_run_others (r : nat) (i : nat) (ts : list traffic) :
  forall w : World,
    queue w = Some r ->
    tidy r w ->
    i <> r ->
    heap (snd (traffic_run ts w)) !! i = heap w !! i.
Proof.
  induction ts as [|t ts IH]; intros w Hr Htidy Hi; [reflexivity|].
  destruct (traffic_step_keeps r w t Hr Htidy) as (Hr1 & Ht1 & _).
  rewrite traffic_run_cons. simpl snd. rewrite (IH _ Hr1 Ht1 Hi).
  destruct t as [m| | |]; simpl.
  - rewrite (on_message_is_put w r m Hr). apply Queue_put_others; assumption.
  - rewrite (recv_is_get w r Hr). apply Queue_get_others; assumption.
  - rewrite (recv_nowait_is_get_nowait w r Hr).
    apply Queue_get_nowait_others; assumption.
  - apply (run_once_others r); assumption.
Qed.

(** X11: the queue that [initialize] creates is the connection's own: the
    queues that other connections already had are not touched by
    [initialize], nor by any traffic on this connection (frames, [recv],
    [recv_nowait], loop turns), and no further queue is ever allocated. *)
Theorem other_queues_are_untouched
    (c : HandlerClass) (req : Request) (h : list Queue) (sp : list Task)
    (srv res : ObjRef) (ts : list traffic) :
  let w1 := snd (initialize srv res (new_handler c req h [] sp)) in
  let w2 := snd (traffic_run ts w1) in
  take (length h) (heap w2) = h /\ length (heap w2) = S (length h).
Proof.
  intros w1 w2.
  destruct (initialized_tidy c req h sp srv res) as (Hr & Ht & _).
  fold w1 in Hr, Ht.
  assert (Hlen : length (heap w2) = S (length h)).
  { destruct (traffic_run_keeps (length h) ts w1 Hr Ht) as (_ & Ht2 & _).
    assert (Hsame : forall ts' w, length (heap (snd (traffic_run ts' w)))
                                  = length (heap w)).
    { clear. induction ts' as [|t ts' IH]; intros w; [reflexivity|].
      rewrite traffic_run_cons. simpl snd. rewrite IH.
      destruct t; simpl.
      - apply keeps_on_message.
      - apply keeps_recv.
      - apply keeps_recv_nowait.
      - apply keeps_run_once. }
    subst w2. rewrite Hsame. subst w1. simpl. rewrite length_app. simpl. lia. }
  split; [|exact Hlen].
  apply list_eq. intros i.
  destruct (decide (i < length h)) as [Hi|Hi].
  - rewrite lookup_take_lt by exact Hi.
    subst w2. rewrite (traffic_run_others (length h) i ts w1 Hr Ht) by lia.
    subst w1. simpl. apply lookup_app_l. exact Hi.
  - rewrite lookup_take_ge by lia. symmetry. apply lookup_ge_None. lia.
Qed.

(** ** The further properties on sample requests *)

(** X5 for ["alice"] under token authentication, on a server run by
    ["cylc"] on ["host"]. *)
Lemma token_profile_sample :
  let w' :=
    snd (UserProfileHandler_get "cylc" "host" (resolves_to (PStr "alice"))
           sample_profile_request) in
  truthy (PStr "alice") = true /\
  exists info : gmap string pyval,
    written w' = [PDict info] /\
    info !! "name" = Some (PStr "cylc") /\
    info !! "owner" = Some (PStr "cylc").
Proof.
  intros w'. split; [reflexivity|].
  destruct (token_profile_names_the_process_user "cylc" "host"
              (resolves_to (PStr "alice")) sample_profile_request eq_refl I)
    as (info & Hw & _ & Hname & _ & Howner & _).
  exists info. split; [exact Hw|]. split; [exact Hname|exact Howner].
Defined.

(** X6 for the sample hub user, whose own owner entry is replaced. *)
Lemma hub_profile_sample :
  let w' :=
    snd (UserProfileHandler_get "cylc" "host" (resolves_to (PDict sample_hub_user))
           sample_profile_request) in
  truthy (PDict sample_hub_user) = true /\
  exists info : gmap string pyval,
    written w' = [PDict info] /\
    info !! "owner" = Some (PStr "cylc") /\
    info !! "name" = Some (PStr "alice").
Proof.
  intros w'.
  assert (Htruthy : truthy (PDict sample_hub_user) = true)
    by (vm_compute; reflexivity).
  split; [exact Htruthy|].
  destruct (hub_profile_keeps_other_entries "cylc" "host"
              (resolves_to (PDict sample_hub_user)) sample_profile_request
              sample_hub_user eq_refl Htruthy)
    as (info & Hw & Howner & Hother).
  exists info. split; [exact Hw|]. split; [exact Howner|].
  rewrite (Hother "name"%string) by discriminate.
  vm_compute. reflexivity.
Defined.

(** X7 for ["alice"] under token authentication. *)
Lemma profile_request_authorises_twice_sample :
  let w' :=
    snd (UserProfileHandler_get "cylc" "host" (resolves_to (PStr "alice"))
           sample_profile_request) in
  _current_user sample_profile_request = None /\
  length (log w') = 2.
Proof.
  intros w'. split; [reflexivity|].
  pose proof (profile_request_authorises_twice "cylc" "host"
                (resolves_to (PStr "alice")) sample_profile_request eq_refl)
    as Htwice.
  hnf in Htwice. destruct Htwice as (Hlog & _ & _).
  exact (f_equal length Hlog).
Defined.

Lemma sample_kwargs_nodup : NoDup sample_kwargs.*1.
Proof.
  simpl. apply NoDup_cons. split.
  - intros Hin. apply list_elem_of_singleton in Hin. discriminate Hin.
  - apply NoDup_singleton.
Defined.

Lemma sample_kwargs_python (k : string) :
  k ∈ sample_kwargs.*1 -> k ∉ initialize_parameters.
Proof.
  simpl. intros Hk Hparam.
  apply elem_of_cons in Hk. destruct Hk as [->|Hk].
  - unfold initialize_parameters in Hparam.
    repeat (apply elem_of_cons in Hparam; destruct Hparam as [Hparam|Hparam];
            [discriminate Hparam|]).
    inversion Hparam.
  - apply list_elem_of_singleton in Hk. subst k.
    unfold initialize_parameters in Hparam.
    repeat (apply elem_of_cons in Hparam; destruct Hparam as [Hparam|Hparam];
            [discriminate Hparam|]).
    inversion Hparam.
Defined.

Lemma sample_parameters_plain (k : string) :
  k ∈ initialize_parameters -> no_descriptor k = false.
Proof. intros _. reflexivity. Defined.

Lemma sample_kwargs_plain (k : string) :
  k ∈ sample_kwargs.*1 -> (k ∉ readonly_properties) /\ no_descriptor k = false.
Proof.
  simpl. intros Hk. split; [|reflexivity]. intros Hro.
  apply elem_of_cons in Hk. destruct Hk as [->|Hk].
  - unfold readonly_properties in Hro.
    repeat (apply elem_of_cons in Hro; destruct Hro as [Hro|Hro];
            [discriminate Hro|]).
    inversion Hro.
  - apply list_elem_of_singleton in Hk. subst k.
    unfold readonly_properties in Hro.
    repeat (apply elem_of_cons in Hro; destruct Hro as [Hro|Hro];
            [discriminate Hro|]).
    inversion Hro.
Defined.

(** X9 on the sample route: [resolvers], declared by the class, is stored;
    [colour], unknown to the handler, is dropped. *)
Lemma extra_kwargs_sample :
  exists self' : gmap string pyobj,
    UIServerGraphQLHandler_initialize (fun _ => []) sample_backend
      no_descriptor no_hasattr no_setattr
      (OObj sample_server) ONone ONone ONone (OBool false) (OBool false)
      (OBool false) ONone sample_kwargs (UIServerGraphQLHandler_attributes ∅)
    = inr self' /\
    self' !! "resolvers" = Some (OObj sample_resolvers) /\
    self' !! "colour" = None.
Proof.
  destruct (extra_kwargs_set_existing_attributes_only (fun _ => []) sample_backend
              no_descriptor no_hasattr no_setattr
              (OObj sample_server) ONone ONone ONone (OBool false) (OBool false)
              (OBool false) ONone sample_kwargs
              (UIServerGraphQLHandler_attributes ∅)
              "resolvers" (OObj sample_resolvers)
              sample_kwargs_nodup sample_kwargs_python sample_parameters_plain
              sample_kwargs_plain ltac:(apply list_elem_of_here))
    as (self1 & Hrun1 & Hresolvers).
  destruct (extra_kwargs_set_existing_attributes_only (fun _ => []) sample_backend
              no_descriptor no_hasattr no_setattr
              (OObj sample_server) ONone ONone ONone (OBool false) (OBool false)
              (OBool false) ONone sample_kwargs
              (UIServerGraphQLHandler_attributes ∅)
              "colour" (OBool true)
              sample_kwargs_nodup sample_kwargs_python sample_parameters_plain
              sample_kwargs_plain
              ltac:(apply list_elem_of_further; apply list_elem_of_here))
    as (self2 & Hrun2 & Hcolour).
  exists self1. split; [exact Hrun1|]. split; [exact Hresolvers|].
  rewrite Hrun1 in Hrun2. inversion Hrun2. exact Hcolour.
Defined.

(** X10 on the sample route: no backend given, so the default one is used,
    and no middleware given, so none is set. *)
Lemma initialize_sets_standard_attributes_sample :
  exists self' : gmap string pyobj,
    UIServerGraphQLHandler_initialize (fun _ => []) sample_backend
      no_descriptor no_hasattr no_setattr
      (OObj sample_server) ONone ONone ONone (OBool false) (OBool false)
      (OBool false) ONone sample_kwargs (UIServerGraphQLHandler_attributes ∅)
    = inr self' /\
    self' !! "schema" = Some (OObj sample_server) /\
    self' !! "backend" = Some sample_backend /\
    self' !! "middleware" = None.
Proof.
  destruct (initialize_sets_standard_attributes (fun _ => []) sample_backend
              no_descriptor no_hasattr no_setattr
              (OObj sample_server) ONone ONone ONone (OBool false) (OBool false)
              (OBool false) ONone sample_kwargs
              (UIServerGraphQLHandler_attributes ∅)
              sample_kwargs_python sample_parameters_plain sample_kwargs_plain)
    as (self' & Hrun & Hschema & _ & _ & _ & _ & _ & Hbackend & Hmiddleware & _).
  exists self'. split; [exact Hrun|]. split; [exact Hschema|].
  split; [exact Hbackend|exact Hmiddleware].
Defined.

